(** * cdp-neighbor-tree: a tree of CDP neighbours rooted at a backbone node

    A shallow embedding of [cdp_neighbor_tree.py] and the properties of its
    three procedures: the hostname classifier ([split_list_by_regex]), the
    root finder ([find_root]) and the tree builder
    ([NetworkTreeNode.find_neighbors]).

    Conventions of the embedding.
    - A Python [str] is a [string] that holds the bytes of its UTF-8
      encoding; equality and concatenation of the two agree.  The classes
      [\w] and [\d] are the Unicode classes of Python, from the tables of
      CPython 3.11.
    - [re.search] is embedded as a matcher by derivatives over the part of
      the regular-expression syntax that the pattern of the program uses.
    - Objects of class [NetworkTreeNode] live in an arena ([list Node]); the
      identity of an object is its index.  The class attribute
      [existing_nodes] is a [gmap] from hostnames to indices.
    - A procedure that can raise returns a [result]; recursion that Python
      bounds only by the data is bounded here by a fuel argument, and the
      theorems about termination give the fuel that suffices. *)

From Stdlib Require Import Ascii String Bool Arith NArith Lia.
From stdpp Require Import base option list gmap strings fin_maps fin_sets.

Set Default Proof Using "Type".

(** ** Regular expressions: the fragment of [re] that the program uses *)

Module Regex.

(** The syntax, over Unicode code points.  [Bol] is [^] (without the
    MULTILINE flag), [Class] is a character class such as [\w], [Never]
    matches nothing and only arises from derivatives. *)
Inductive regex : Type :=
| Never
| Empty
| Bol
| Lit (c : N)
| Class (p : N → bool)
| Cat (r1 r2 : regex)
| Alt (r1 r2 : regex)
| Star (r : regex).

(** [r+] and [r?]. *)
Definition Plus (r : regex) : regex := Cat r (Star r).
Definition Opt (r : regex) : regex := Alt r Empty.

(** Whether the position after having read [s] is still the beginning of
    the string, [b] telling whether the position before [s] was. *)
Definition still_bol (b : bool) (s : list N) : bool :=
  match s with [] => b | _ :: _ => false end.

(** [matches b r s]: the expression [r] matches exactly the characters [s],
    starting at a position that is the beginning of the string iff [b]. *)
Inductive matches : bool → regex → list N → Prop :=
| M_Empty b : matches b Empty []
| M_Bol : matches true Bol []
| M_Lit b c : matches b (Lit c) [c]
| M_Class b p c : p c = true → matches b (Class p) [c]
| M_Cat b r1 r2 s1 s2 :
    matches b r1 s1 → matches (still_bol b s1) r2 s2 →
    matches b (Cat r1 r2) (s1 ++ s2)
| M_AltL b r1 r2 s : matches b r1 s → matches b (Alt r1 r2) s
| M_AltR b r1 r2 s : matches b r2 s → matches b (Alt r1 r2) s
| M_Star_nil b r : matches b (Star r) []
| M_Star_app b r s1 s2 :
    matches b r s1 → matches (still_bol b s1) (Star r) s2 →
    matches b (Star r) (s1 ++ s2).

(** The matcher. *)
Fixpoint nullable (b : bool) (r : regex) : bool :=
  match r with
  | Never => false
  | Empty => true
  | Bol => b
  | Lit _ => false
  | Class _ => false
  | Cat r1 r2 => nullable b r1 && nullable b r2
  | Alt r1 r2 => nullable b r1 || nullable b r2
  | Star _ => true
  end.

Fixpoint deriv (b : bool) (c : N) (r : regex) : regex :=
  match r with
  | Never | Empty | Bol => Never
  | Lit c' => if N.eqb c c' then Empty else Never
  | Class p => if p c then Empty else Never
  | Cat r1 r2 =>
      Alt (Cat (deriv b c r1) r2)
          (if nullable b r1 then deriv b c r2 else Never)
  | Alt r1 r2 => Alt (deriv b c r1) (deriv b c r2)
  | Star r1 => Cat (deriv b c r1) (Star r1)
  end.

(** [match_here b r s]: does [r] match some prefix of [s]?  This is
    [re.match] at one position. *)
Fixpoint match_here (b : bool) (r : regex) (s : list N) : bool :=
  nullable b r
  || match s with
     | [] => false
     | c :: s' => match_here false (deriv b c r) s'
     end.

(** [re.search]: try every position from left to right; only the first one
    is the beginning of the string. *)
Fixpoint search_from (b : bool) (r : regex) (s : list N) : bool :=
  match_here b r s
  || match s with
     | [] => false
     | _ :: s' => search_from false r s'
     end.

(** *** The characters of a [str]

    A [string] holds the bytes of the UTF-8 encoding of a [str];
    [decode_utf8] gives its characters, as code points.  A byte that begins
    no well-formed sequence (which no [str] gives rise to) is read as a
    value above every code point, [invalid], that no class and no literal
    matches.  Well-formed is: shortest form, at most U+10FFFF, no
    surrogate. *)
Definition code (c : ascii) : N := N_of_ascii c.

Definition bytes_of (s : string) : list N := N_of_ascii <$> list_ascii_of_string s.

Definition invalid (b : N) : N := (1114112 + b)%N.

Definition continuation (b : N) : bool := ((128 <=? b) && (b <=? 191))%N.

Definition two_bytes (b0 b1 : N) : option N :=
  if ((192 <=? b0) && (b0 <=? 223))%N && continuation b1 then
    let c := ((b0 - 192) * 64 + (b1 - 128))%N in
    if (128 <=? c)%N then Some c else None
  else None.

Definition three_bytes (b0 b1 b2 : N) : option N :=
  if ((224 <=? b0) && (b0 <=? 239))%N && continuation b1 && continuation b2 then
    let c := ((b0 - 224) * 4096 + (b1 - 128) * 64 + (b2 - 128))%N in
    if ((2048 <=? c) && negb ((55296 <=? c) && (c <=? 57343)))%N
    then Some c else None
  else None.

Definition four_bytes (b0 b1 b2 b3 : N) : option N :=
  if ((240 <=? b0) && (b0 <=? 247))%N
     && continuation b1 && continuation b2 && continuation b3 then
    let c := ((b0 - 240) * 262144 + (b1 - 128) * 4096
              + (b2 - 128) * 64 + (b3 - 128))%N in
    if ((65536 <=? c) && (c <=? 1114111))%N then Some c else None
  else None.

Fixpoint decode (bs : list N) : list N :=
  match bs with
  | [] => []
  | b0 :: r0 =>
      if (b0 <? 128)%N then b0 :: decode r0
      else
        match r0 with
        | [] => invalid b0 :: decode r0
        | b1 :: r1 =>
            match two_bytes b0 b1 with
            | Some c => c :: decode r1
            | None =>
                match r1 with
                | [] => invalid b0 :: decode r0
                | b2 :: r2 =>
                    match three_bytes b0 b1 b2 with
                    | Some c => c :: decode r2
                    | None =>
                        match r2 with
                        | [] => invalid b0 :: decode r0
                        | b3 :: r3 =>
                            match four_bytes b0 b1 b2 b3 with
                            | Some c => c :: decode r3
                            | None => invalid b0 :: decode r0
                            end
                        end
                    end
                end
            end
        end
  end.

Definition decode_utf8 (s : string) : list N := decode (bytes_of s).

(** [search(pattern, item)], used for its truth value only. *)
Definition search (pattern : regex) (item : string) : bool :=
  search_from true pattern (decode_utf8 item).

(** *** The classes [\w] and [\d]

    For a [str] pattern without the ASCII flag, [\d] matches the decimal
    digits of Unicode ([str.isdecimal]) and [\w] matches the alphanumeric
    characters of Unicode ([str.isalnum]) and the underscore.  The tables
    are those of CPython 3.11 (Unicode 14.0.0), as inclusive ranges of code
    points. *)
Fixpoint in_ranges (c : N) (ranges : list (N * N)) : bool :=
  match ranges with
  | [] => false
  | (lo, hi) :: rest =>
      if ((lo <=? c) && (c <=? hi))%N then true else in_ranges c rest
  end.

Definition DIGIT_RANGES : list (N * N) :=
  [ (48, 57); (1632, 1641); (1776, 1785); (1984, 1993); (2406, 2415);
    (2534, 2543); (2662, 2671); (2790, 2799); (2918, 2927); (3046, 3055);
    (3174, 3183); (3302, 3311); (3430, 3439); (3558, 3567); (3664, 3673);
    (3792, 3801); (3872, 3881); (4160, 4169); (4240, 4249); (6112, 6121);
    (6160, 6169); (6470, 6479); (6608, 6617); (6784, 6793); (6800, 6809);
    (6992, 7001); (7088, 7097); (7232, 7241); (7248, 7257); (42528, 42537);
    (43216, 43225); (43264, 43273); (43472, 43481); (43504, 43513);
    (43600, 43609); (44016, 44025); (65296, 65305); (66720, 66729);
    (68912, 68921); (69734, 69743); (69872, 69881); (69942, 69951);
    (70096, 70105); (70384, 70393); (70736, 70745); (70864, 70873);
    (71248, 71257); (71360, 71369); (71472, 71481); (71904, 71913);
    (72016, 72025); (72784, 72793); (73040, 73049); (73120, 73129);
    (92768, 92777); (92864, 92873); (93008, 93017); (120782, 120831);
    (123200, 123209); (123632, 123641); (125264, 125273);
    (130032, 130041) ]%N.

Definition WORD_RANGES : list (N * N) :=
  [ (48, 57); (65, 90); (95, 95); (97, 122); (170, 170); (178, 179);
    (181, 181); (185, 186); (188, 190); (192, 214); (216, 246); (248, 705);
    (710, 721); (736, 740); (748, 748); (750, 750); (880, 884); (886, 887);
    (890, 893); (895, 895); (902, 902); (904, 906); (908, 908); (910, 929);
    (931, 1013); (1015, 1153); (1162, 1327); (1329, 1366); (1369, 1369);
    (1376, 1416); (1488, 1514); (1519, 1522); (1568, 1610); (1632, 1641);
    (1646, 1647); (1649, 1747); (1749, 1749); (1765, 1766); (1774, 1788);
    (1791, 1791); (1808, 1808); (1810, 1839); (1869, 1957); (1969, 1969);
    (1984, 2026); (2036, 2037); (2042, 2042); (2048, 2069); (2074, 2074);
    (2084, 2084); (2088, 2088); (2112, 2136); (2144, 2154); (2160, 2183);
    (2185, 2190); (2208, 2249); (2308, 2361); (2365, 2365); (2384, 2384);
    (2392, 2401); (2406, 2415); (2417, 2432); (2437, 2444); (2447, 2448);
    (2451, 2472); (2474, 2480); (2482, 2482); (2486, 2489); (2493, 2493);
    (2510, 2510); (2524, 2525); (2527, 2529); (2534, 2545); (2548, 2553);
    (2556, 2556); (2565, 2570); (2575, 2576); (2579, 2600); (2602, 2608);
    (2610, 2611); (2613, 2614); (2616, 2617); (2649, 2652); (2654, 2654);
    (2662, 2671); (2674, 2676); (2693, 2701); (2703, 2705); (2707, 2728);
    (2730, 2736); (2738, 2739); (2741, 2745); (2749, 2749); (2768, 2768);
    (2784, 2785); (2790, 2799); (2809, 2809); (2821, 2828); (2831, 2832);
    (2835, 2856); (2858, 2864); (2866, 2867); (2869, 2873); (2877, 2877);
    (2908, 2909); (2911, 2913); (2918, 2927); (2929, 2935); (2947, 2947);
    (2949, 2954); (2958, 2960); (2962, 2965); (2969, 2970); (2972, 2972);
    (2974, 2975); (2979, 2980); (2984, 2986); (2990, 3001); (3024, 3024);
    (3046, 3058); (3077, 3084); (3086, 3088); (3090, 3112); (3114, 3129);
    (3133, 3133); (3160, 3162); (3165, 3165); (3168, 3169); (3174, 3183);
    (3192, 3198); (3200, 3200); (3205, 3212); (3214, 3216); (3218, 3240);
    (3242, 3251); (3253, 3257); (3261, 3261); (3293, 3294); (3296, 3297);
    (3302, 3311); (3313, 3314); (3332, 3340); (3342, 3344); (3346, 3386);
    (3389, 3389); (3406, 3406); (3412, 3414); (3416, 3425); (3430, 3448);
    (3450, 3455); (3461, 3478); (3482, 3505); (3507, 3515); (3517, 3517);
    (3520, 3526); (3558, 3567); (3585, 3632); (3634, 3635); (3648, 3654);
    (3664, 3673); (3713, 3714); (3716, 3716); (3718, 3722); (3724, 3747);
    (3749, 3749); (3751, 3760); (3762, 3763); (3773, 3773); (3776, 3780);
    (3782, 3782); (3792, 3801); (3804, 3807); (3840, 3840); (3872, 3891);
    (3904, 3911); (3913, 3948); (3976, 3980); (4096, 4138); (4159, 4169);
    (4176, 4181); (4186, 4189); (4193, 4193); (4197, 4198); (4206, 4208);
    (4213, 4225); (4238, 4238); (4240, 4249); (4256, 4293); (4295, 4295);
    (4301, 4301); (4304, 4346); (4348, 4680); (4682, 4685); (4688, 4694);
    (4696, 4696); (4698, 4701); (4704, 4744); (4746, 4749); (4752, 4784);
    (4786, 4789); (4792, 4798); (4800, 4800); (4802, 4805); (4808, 4822);
    (4824, 4880); (4882, 4885); (4888, 4954); (4969, 4988); (4992, 5007);
    (5024, 5109); (5112, 5117); (5121, 5740); (5743, 5759); (5761, 5786);
    (5792, 5866); (5870, 5880); (5888, 5905); (5919, 5937); (5952, 5969);
    (5984, 5996); (5998, 6000); (6016, 6067); (6103, 6103); (6108, 6108);
    (6112, 6121); (6128, 6137); (6160, 6169); (6176, 6264); (6272, 6276);
    (6279, 6312); (6314, 6314); (6320, 6389); (6400, 6430); (6470, 6509);
    (6512, 6516); (6528, 6571); (6576, 6601); (6608, 6618); (6656, 6678);
    (6688, 6740); (6784, 6793); (6800, 6809); (6823, 6823); (6917, 6963);
    (6981, 6988); (6992, 7001); (7043, 7072); (7086, 7141); (7168, 7203);
    (7232, 7241); (7245, 7293); (7296, 7304); (7312, 7354); (7357, 7359);
    (7401, 7404); (7406, 7411); (7413, 7414); (7418, 7418); (7424, 7615);
    (7680, 7957); (7960, 7965); (7968, 8005); (8008, 8013); (8016, 8023);
    (8025, 8025); (8027, 8027); (8029, 8029); (8031, 8061); (8064, 8116);
    (8118, 8124); (8126, 8126); (8130, 8132); (8134, 8140); (8144, 8147);
    (8150, 8155); (8160, 8172); (8178, 8180); (8182, 8188); (8304, 8305);
    (8308, 8313); (8319, 8329); (8336, 8348); (8450, 8450); (8455, 8455);
    (8458, 8467); (8469, 8469); (8473, 8477); (8484, 8484); (8486, 8486);
    (8488, 8488); (8490, 8493); (8495, 8505); (8508, 8511); (8517, 8521);
    (8526, 8526); (8528, 8585); (9312, 9371); (9450, 9471); (10102, 10131);
    (11264, 11492); (11499, 11502); (11506, 11507); (11517, 11517);
    (11520, 11557); (11559, 11559); (11565, 11565); (11568, 11623);
    (11631, 11631); (11648, 11670); (11680, 11686); (11688, 11694);
    (11696, 11702); (11704, 11710); (11712, 11718); (11720, 11726);
    (11728, 11734); (11736, 11742); (11823, 11823); (12293, 12295);
    (12321, 12329); (12337, 12341); (12344, 12348); (12353, 12438);
    (12445, 12447); (12449, 12538); (12540, 12543); (12549, 12591);
    (12593, 12686); (12690, 12693); (12704, 12735); (12784, 12799);
    (12832, 12841); (12872, 12879); (12881, 12895); (12928, 12937);
    (12977, 12991); (13312, 19903); (19968, 42124); (42192, 42237);
    (42240, 42508); (42512, 42539); (42560, 42606); (42623, 42653);
    (42656, 42735); (42775, 42783); (42786, 42888); (42891, 42954);
    (42960, 42961); (42963, 42963); (42965, 42969); (42994, 43009);
    (43011, 43013); (43015, 43018); (43020, 43042); (43056, 43061);
    (43072, 43123); (43138, 43187); (43216, 43225); (43250, 43255);
    (43259, 43259); (43261, 43262); (43264, 43301); (43312, 43334);
    (43360, 43388); (43396, 43442); (43471, 43481); (43488, 43492);
    (43494, 43518); (43520, 43560); (43584, 43586); (43588, 43595);
    (43600, 43609); (43616, 43638); (43642, 43642); (43646, 43695);
    (43697, 43697); (43701, 43702); (43705, 43709); (43712, 43712);
    (43714, 43714); (43739, 43741); (43744, 43754); (43762, 43764);
    (43777, 43782); (43785, 43790); (43793, 43798); (43808, 43814);
    (43816, 43822); (43824, 43866); (43868, 43881); (43888, 44002);
    (44016, 44025); (44032, 55203); (55216, 55238); (55243, 55291);
    (63744, 64109); (64112, 64217); (64256, 64262); (64275, 64279);
    (64285, 64285); (64287, 64296); (64298, 64310); (64312, 64316);
    (64318, 64318); (64320, 64321); (64323, 64324); (64326, 64433);
    (64467, 64829); (64848, 64911); (64914, 64967); (65008, 65019);
    (65136, 65140); (65142, 65276); (65296, 65305); (65313, 65338);
    (65345, 65370); (65382, 65470); (65474, 65479); (65482, 65487);
    (65490, 65495); (65498, 65500); (65536, 65547); (65549, 65574);
    (65576, 65594); (65596, 65597); (65599, 65613); (65616, 65629);
    (65664, 65786); (65799, 65843); (65856, 65912); (65930, 65931);
    (66176, 66204); (66208, 66256); (66273, 66299); (66304, 66339);
    (66349, 66378); (66384, 66421); (66432, 66461); (66464, 66499);
    (66504, 66511); (66513, 66517); (66560, 66717); (66720, 66729);
    (66736, 66771); (66776, 66811); (66816, 66855); (66864, 66915);
    (66928, 66938); (66940, 66954); (66956, 66962); (66964, 66965);
    (66967, 66977); (66979, 66993); (66995, 67001); (67003, 67004);
    (67072, 67382); (67392, 67413); (67424, 67431); (67456, 67461);
    (67463, 67504); (67506, 67514); (67584, 67589); (67592, 67592);
    (67594, 67637); (67639, 67640); (67644, 67644); (67647, 67669);
    (67672, 67702); (67705, 67742); (67751, 67759); (67808, 67826);
    (67828, 67829); (67835, 67867); (67872, 67897); (67968, 68023);
    (68028, 68047); (68050, 68096); (68112, 68115); (68117, 68119);
    (68121, 68149); (68160, 68168); (68192, 68222); (68224, 68255);
    (68288, 68295); (68297, 68324); (68331, 68335); (68352, 68405);
    (68416, 68437); (68440, 68466); (68472, 68497); (68521, 68527);
    (68608, 68680); (68736, 68786); (68800, 68850); (68858, 68899);
    (68912, 68921); (69216, 69246); (69248, 69289); (69296, 69297);
    (69376, 69415); (69424, 69445); (69457, 69460); (69488, 69505);
    (69552, 69579); (69600, 69622); (69635, 69687); (69714, 69743);
    (69745, 69746); (69749, 69749); (69763, 69807); (69840, 69864);
    (69872, 69881); (69891, 69926); (69942, 69951); (69956, 69956);
    (69959, 69959); (69968, 70002); (70006, 70006); (70019, 70066);
    (70081, 70084); (70096, 70106); (70108, 70108); (70113, 70132);
    (70144, 70161); (70163, 70187); (70272, 70278); (70280, 70280);
    (70282, 70285); (70287, 70301); (70303, 70312); (70320, 70366);
    (70384, 70393); (70405, 70412); (70415, 70416); (70419, 70440);
    (70442, 70448); (70450, 70451); (70453, 70457); (70461, 70461);
    (70480, 70480); (70493, 70497); (70656, 70708); (70727, 70730);
    (70736, 70745); (70751, 70753); (70784, 70831); (70852, 70853);
    (70855, 70855); (70864, 70873); (71040, 71086); (71128, 71131);
    (71168, 71215); (71236, 71236); (71248, 71257); (71296, 71338);
    (71352, 71352); (71360, 71369); (71424, 71450); (71472, 71483);
    (71488, 71494); (71680, 71723); (71840, 71922); (71935, 71942);
    (71945, 71945); (71948, 71955); (71957, 71958); (71960, 71983);
    (71999, 71999); (72001, 72001); (72016, 72025); (72096, 72103);
    (72106, 72144); (72161, 72161); (72163, 72163); (72192, 72192);
    (72203, 72242); (72250, 72250); (72272, 72272); (72284, 72329);
    (72349, 72349); (72368, 72440); (72704, 72712); (72714, 72750);
    (72768, 72768); (72784, 72812); (72818, 72847); (72960, 72966);
    (72968, 72969); (72971, 73008); (73030, 73030); (73040, 73049);
    (73056, 73061); (73063, 73064); (73066, 73097); (73112, 73112);
    (73120, 73129); (73440, 73458); (73648, 73648); (73664, 73684);
    (73728, 74649); (74752, 74862); (74880, 75075); (77712, 77808);
    (77824, 78894); (82944, 83526); (92160, 92728); (92736, 92766);
    (92768, 92777); (92784, 92862); (92864, 92873); (92880, 92909);
    (92928, 92975); (92992, 92995); (93008, 93017); (93019, 93025);
    (93027, 93047); (93053, 93071); (93760, 93846); (93952, 94026);
    (94032, 94032); (94099, 94111); (94176, 94177); (94179, 94179);
    (94208, 100343); (100352, 101589); (101632, 101640); (110576, 110579);
    (110581, 110587); (110589, 110590); (110592, 110882); (110928, 110930);
    (110948, 110951); (110960, 111355); (113664, 113770); (113776, 113788);
    (113792, 113800); (113808, 113817); (119520, 119539); (119648, 119672);
    (119808, 119892); (119894, 119964); (119966, 119967); (119970, 119970);
    (119973, 119974); (119977, 119980); (119982, 119993); (119995, 119995);
    (119997, 120003); (120005, 120069); (120071, 120074); (120077, 120084);
    (120086, 120092); (120094, 120121); (120123, 120126); (120128, 120132);
    (120134, 120134); (120138, 120144); (120146, 120485); (120488, 120512);
    (120514, 120538); (120540, 120570); (120572, 120596); (120598, 120628);
    (120630, 120654); (120656, 120686); (120688, 120712); (120714, 120744);
    (120746, 120770); (120772, 120779); (120782, 120831); (122624, 122654);
    (123136, 123180); (123191, 123197); (123200, 123209); (123214, 123214);
    (123536, 123565); (123584, 123627); (123632, 123641); (124896, 124902);
    (124904, 124907); (124909, 124910); (124912, 124926); (124928, 125124);
    (125127, 125135); (125184, 125251); (125259, 125259); (125264, 125273);
    (126065, 126123); (126125, 126127); (126129, 126132); (126209, 126253);
    (126255, 126269); (126464, 126467); (126469, 126495); (126497, 126498);
    (126500, 126500); (126503, 126503); (126505, 126514); (126516, 126519);
    (126521, 126521); (126523, 126523); (126530, 126530); (126535, 126535);
    (126537, 126537); (126539, 126539); (126541, 126543); (126545, 126546);
    (126548, 126548); (126551, 126551); (126553, 126553); (126555, 126555);
    (126557, 126557); (126559, 126559); (126561, 126562); (126564, 126564);
    (126567, 126570); (126572, 126578); (126580, 126583); (126585, 126588);
    (126590, 126590); (126592, 126601); (126603, 126619); (126625, 126627);
    (126629, 126633); (126635, 126651); (127232, 127244); (130032, 130041);
    (131072, 173791); (173824, 177976); (177984, 178205); (178208, 183969);
    (183984, 191456); (194560, 195101); (196608, 201546) ]%N.

Definition digit (c : N) : bool := in_ranges c DIGIT_RANGES.

Definition word (c : N) : bool := in_ranges c WORD_RANGES.

#[global] Arguments digit : simpl never.
#[global] Arguments word : simpl never.
#[global] Arguments decode_utf8 : simpl never.

End Regex.

Import Regex.

(** ** The program *)

(** *** Outcomes of a call

    [KeyError key] is the exception that [STATIC_DATA[key]] raises for a key
    that the dictionary does not hold; no [try] occurs in the program, so an
    exception ends every enclosing call.  [OutOfFuel] is not an outcome of
    the program: it says that the recursion went deeper than the fuel given
    to the model. *)
Inductive result (A : Type) : Type :=
| Ok (a : A)
| KeyError (key : string)
| OutOfFuel.
Arguments Ok {A} a.
Arguments KeyError {A} key.
Arguments OutOfFuel {A}.

#[export] Instance result_ret : MRet result := @Ok.
#[export] Instance result_bind : MBind result := λ A B f m,
  match m with
  | Ok a => f a
  | KeyError key => KeyError key
  | OutOfFuel => OutOfFuel
  end.

(** *** The adjacency source and the pattern *)

(** The type of [STATIC_DATA]: a dictionary from a hostname to the list of
    its CDP neighbours.  The procedures take it as an argument [data]. *)
Abbreviation adjacency := (gmap string (list string)).

(** [STATIC_DATA[key]]. *)
Definition subscript (data : adjacency) (key : string) : result (list string) :=
  match data !! key with
  | Some neighbors => Ok neighbors
  | None => KeyError key
  end.

Definition STATIC_DATA : adjacency :=
  list_to_map
    [ ("sweden-pe1.example.com",
        [ "norway-pe1.example.com"; "finland-pe1.example.com";
          "denmark-pe2.example.com"; "sweden-a1.example.com";
          "sweden-a2.example.com"; "sweden-a4.example.com" ]);
      ("norway-pe1.example.com",
        [ "sweden-pe1.example.com"; "denmark-pe1.example.com";
          "iceland-pe1.example.com" ]);
      ("finland-pe1.example.com",
        [ "sweden-pe1.example.com"; "greenland-pe1.example.com" ]);
      ("denmark-pe2.example.com",
        [ "sweden-pe1.example.com"; "denmark-a1.example.com" ]);
      ("denmark-a1.example.com", [ "denmark-pe2.example.com" ]);
      ("sweden-a1.example.com",
        [ "sweden-pe1.example.com"; "sweden-a3.example.com";
          "sweden-a5.example.com" ]);
      ("sweden-a2.example.com",
        [ "sweden-pe1.example.com"; "sweden-a6.example.com" ]);
      ("sweden-a3.example.com",
        [ "sweden-a1.example.com"; "sweden-a7.example.com" ]);
      ("sweden-a4.example.com", [ "sweden-pe1.example.com" ]);
      ("sweden-a5.example.com", [ "sweden-a1.example.com" ]);
      ("sweden-a6.example.com", [ "sweden-a2.example.com" ]);
      ("sweden-a7.example.com", [ "sweden-a3.example.com" ]) ].

(** [(?:\w+-)+], shared by the pattern of the program and by the pattern
    that the specification describes. *)
Definition dash_labels : regex :=
  Plus (Cat (Plus (Class word)) (Lit (code "-"))).

(** [REGEXP_PE_PATTERN = r"^(?:\w+-)+pe?\d+\."] *)
Definition REGEXP_PE_PATTERN : regex :=
  Cat Bol
    (Cat dash_labels
       (Cat (Lit (code "p")) (Cat (Opt (Lit (code "e"))) (Cat (Plus (Class digit)) (Lit (code ".")))))).

(** The test [search(REGEXP_PE_PATTERN, hostname)] of [find_root] and
    [find_neighbors]. *)
Definition is_backbone (hostname : string) : bool :=
  search REGEXP_PE_PATTERN hostname.

(** *** The classifier *)

(** [[item for item in lst if cond(item)]] *)
Fixpoint comprehension (cond : string → bool) (lst : list string) : list string :=
  match lst with
  | [] => []
  | item :: rest =>
      if cond item then item :: comprehension cond rest
      else comprehension cond rest
  end.

Definition split_list_by_regex (lst : list string) (pattern : regex)
  : list string * list string :=
  let matches := comprehension (λ item, search pattern item) lst in
  let non_matches := comprehension (λ item, negb (search pattern item)) lst in
  (matches, non_matches).

(** *** Tree nodes and the registry *)

(** The identity of a [NetworkTreeNode] object. *)
Abbreviation addr := nat (only parsing).

Record Node : Type := mkNode {
  hostname : string;
  parent : option addr;
  children : list addr
}.

#[export] Instance Node_inhabited : Inhabited Node := populate (mkNode "" None []).

(** The objects allocated so far and the class attribute [existing_nodes]. *)
Record State : Type := mkState {
  heap : list Node;
  existing_nodes : gmap string addr
}.

(** The state of a fresh process. *)
Definition fresh : State := mkState [] ∅.

(** Attribute reads.  Python never holds a dangling reference; the model
    reads [heap !!! a], which is a blank node for an index out of range. *)
Definition hostname_of (σ : State) (a : addr) : string := hostname (heap σ !!! a).
Definition parent_of (σ : State) (a : addr) : option addr := parent (heap σ !!! a).
Definition children_of (σ : State) (a : addr) : list addr := children (heap σ !!! a).

(** [NetworkTreeNode(hostname)]: [__init__] with [_add_to_existing]. *)
Definition NetworkTreeNode (hostname : string) (σ : State) : addr * State :=
  let self := length (heap σ) in
  (self, mkState (heap σ ++ [mkNode hostname None []])
                 (<[hostname := self]> (existing_nodes σ))).

Definition get_existing_node (hostname : string) (σ : State) : option addr :=
  existing_nodes σ !! hostname.

(** [child.parent = self] and [self.children.append(child)]. *)
Definition set_parent (child self : addr) (σ : State) : State :=
  mkState (alter (λ n, mkNode (hostname n) (Some self) (children n)) child (heap σ))
          (existing_nodes σ).

Definition append_child (self child : addr) (σ : State) : State :=
  mkState (alter (λ n, mkNode (hostname n) (parent n) (children n ++ [child])) self (heap σ))
          (existing_nodes σ).

Definition _add_child (self : addr) (child_hostname : string) (σ : State)
  : addr * State :=
  let '(child, σ1) :=
    match get_existing_node child_hostname σ with
    | Some child => (child, σ)
    | None => NetworkTreeNode child_hostname σ
    end in
  if decide (parent_of σ1 self = Some child) then (child, σ1)
  else (child, append_child self child (set_parent child self σ1)).

(** *** The tree builder *)

(** Lines 111 to 118 of [find_neighbors]: the loop over the backbone
    neighbours.  The loop iterates over the list object that
    [mpls_neighbors] named when the loop started; the assignments to
    [cdp_neighbors] and [mpls_neighbors] in its body bind the names anew and
    do not change that list. *)
Fixpoint redundancy_loop (data : adjacency) (mpls_neighbors dependant_neighbors : list string)
  : result (list string) :=
  match mpls_neighbors with
  | [] => Ok dependant_neighbors
  | neighbor :: rest =>
      cdp_neighbors ← subscript data neighbor;
      let '(mpls_neighbors', _) := split_list_by_regex cdp_neighbors REGEXP_PE_PATTERN in
      if Nat.ltb (length mpls_neighbors') 2
      then redundancy_loop data rest (dependant_neighbors ++ [neighbor])
      else redundancy_loop data rest dependant_neighbors
  end.

(** Lines 100 to 118: the list [dependant_neighbors] as it stands when the
    last loop of [find_neighbors] starts. *)
Definition dependants (data : adjacency) (self_hostname : string) : result (list string) :=
  cdp_neighbors ← subscript data self_hostname;
  let '(mpls_neighbors, dependant_neighbors) :=
    split_list_by_regex cdp_neighbors REGEXP_PE_PATTERN in
  if search REGEXP_PE_PATTERN self_hostname
  then redundancy_loop data mpls_neighbors dependant_neighbors
  else Ok dependant_neighbors.

(** What a traversal threads through its calls: the set [visited], one
    object shared by all the calls, and the nodes. *)
Abbreviation traversal := (gset addr * State)%type.

(** Lines 124 to 127: the loop over [dependant_neighbors]; [recurse] is
    [find_neighbors] itself. *)
Fixpoint attach_loop (recurse : addr → traversal → traversal * result ())
    (self : addr) (dependant_neighbors : list string) (t : traversal)
  : traversal * result () :=
  match dependant_neighbors with
  | [] => (t, Ok ())
  | neighbor :: rest =>
      let '(child_node, σ1) := _add_child self neighbor t.2 in
      let visited1 := {[self]} ∪ t.1 in
      match recurse child_node (visited1, σ1) with
      | (t2, Ok _) => attach_loop recurse self rest t2
      | (t2, KeyError key) => (t2, KeyError key)
      | (t2, OutOfFuel) => (t2, OutOfFuel)
      end
  end.

(** [self.find_neighbors(visited)].  An exception leaves the nodes as they
    were when it was raised. *)
Fixpoint find_neighbors (data : adjacency) (fuel : nat) (self : addr) (t : traversal)
  : traversal * result () :=
  match fuel with
  | 0 => (t, OutOfFuel)
  | S fuel' =>
      if decide (self ∈ t.1) then (t, Ok ())
      else
        match dependants data (hostname_of t.2 self) with
        | Ok dependant_neighbors =>
            attach_loop (find_neighbors data fuel') self dependant_neighbors t
        | KeyError key => (t, KeyError key)
        | OutOfFuel => (t, OutOfFuel)
        end
  end.

(** *** The root finder *)

(** [find_root(hostname, visited)].  Both paths of the body of the [for]
    loop return, so the loop never reaches a second neighbour: it returns in
    its first iteration, or falls through to [return None] on an empty
    list. *)
Fixpoint find_root (data : adjacency) (fuel : nat) (hostname : string)
    (visited : gset string) : result (option string) :=
  match fuel with
  | 0 => OutOfFuel
  | S fuel' =>
      if decide (hostname ∈ visited) then Ok None
      else if search REGEXP_PE_PATTERN hostname then Ok (Some hostname)
      else
        cdp_neighbors ← subscript data hostname;
        match cdp_neighbors with
        | [] => Ok None
        | neighbor :: _ =>
            if search REGEXP_PE_PATTERN neighbor then Ok (Some neighbor)
            else find_root data fuel' neighbor ({[hostname]} ∪ visited)
        end
  end.

(** *** The entry point *)

(** [node = NetworkTreeNode(root_hostname); node.find_neighbors()] *)
Definition build (data : adjacency) (fuel : nat) (root_hostname : string) (σ : State)
  : traversal * result () :=
  let '(node, σ1) := NetworkTreeNode root_hostname σ in
  find_neighbors data fuel node (∅, σ1).

(** [main], up to the call of [print_tree]: the nodes that it leaves. *)
Definition main (data : adjacency) (fuel : nat) (target : string)
  : State * result () :=
  match find_root data fuel target ∅ with
  | Ok (Some root_hostname) =>
      let '(t, r) := build data fuel root_hostname fresh in (t.2, r)
  | Ok None => (fresh, Ok ())
  | KeyError key => (fresh, KeyError key)
  | OutOfFuel => (fresh, OutOfFuel)
  end.

(** The hostnames of the children of the node registered under a hostname,
    in the order of the list [children]. *)
Definition children_names (σ : State) (h : string) : list string :=
  match get_existing_node h σ with
  | Some a => hostname_of σ <$> children_of σ a
  | None => []
  end.

Definition parent_name (σ : State) (h : string) : option string :=
  a ← get_existing_node h σ; p ← parent_of σ a; Some (hostname_of σ p).

(** ** Notions that the properties are stated with *)

(** *** The shape of a backbone hostname

    A label is a non-empty run of word characters ([\w]), a number a
    non-empty run of decimal digits ([\d]), both over the code points of
    Unicode; [dashed labels] writes every label followed by a dash. *)
Definition label (l : list N) : Prop :=
  l ≠ [] ∧ Forall (λ c, word c = true) l.

Definition number (d : list N) : Prop :=
  d ≠ [] ∧ Forall (λ c, digit c = true) d.

Definition dashed (labels : list (list N)) : list N :=
  concat ((λ l, l ++ [(code "-")]) <$> labels).

(** The shape that [REGEXP_PE_PATTERN] accepts: one or more labels, each
    followed by a dash, then [p], then [e] or nothing, then a number, then a
    dot; anything may follow. *)
Definition backbone_shape (h : string) : Prop :=
  ∃ labels e digits rest,
    labels ≠ [] ∧ Forall label labels ∧ (e = [] ∨ e = [(code "e")]) ∧ number digits ∧
    decode_utf8 h
    = dashed labels ++ (code "p") :: e ++ digits ++ (code ".") :: rest.

(** The shape in the words of the specification: the last label "begins with
    an optional p followed by e and one or more digits, followed by a
    delimiter", the delimiter being the dot of its example
    [region-pe1.domain]. *)
Definition claimed_backbone_shape (h : string) : Prop :=
  ∃ labels p digits rest,
    labels ≠ [] ∧ Forall label labels ∧ (p = [] ∨ p = [(code "p")]) ∧ number digits ∧
    decode_utf8 h
    = dashed labels ++ p ++ (code "e") :: digits ++ (code ".") :: rest.


(** *** Stable partition *)

(** The pattern matches the item: [search(pattern, item)] is true. *)
Definition matched (pattern : regex) (item : string) : Prop :=
  search pattern item = true.

(** [partitions P lst yes no]: [yes] and [no] split [lst] between the
    elements that satisfy [P] and the others, every element of [lst] going
    to exactly one of them, in the order of [lst]. *)
Inductive partitions (P : string → Prop) : list string → list string → list string → Prop :=
| partitions_nil : partitions P [] [] []
| partitions_yes x lst yes no :
    P x → partitions P lst yes no → partitions P (x :: lst) (x :: yes) no
| partitions_no x lst yes no :
    ¬ P x → partitions P lst yes no → partitions P (x :: lst) yes (x :: no).


(** *** Neighbours *)

(** The backbone neighbours of a hostname: the first list that the
    classifier returns for its neighbour list.  Only used where the
    hostname is a key of the source. *)
Definition backbone_neighbors (data : adjacency) (h : string) : list string :=
  (split_list_by_regex (default [] (data !! h)) REGEXP_PE_PATTERN).1.

(** The first backbone neighbour in the order of a neighbour list. *)
Definition first_backbone_neighbor (cdp_neighbors : list string) : option string :=
  head (split_list_by_regex cdp_neighbors REGEXP_PE_PATTERN).1.

(** [b] is listed as a neighbour of [a]; [reachable] follows such links. *)
Definition adjacent (data : adjacency) (a b : string) : Prop :=
  ∃ cdp_neighbors, data !! a = Some cdp_neighbors ∧ b ∈ cdp_neighbors.

Definition reachable (data : adjacency) : string → string → Prop :=
  rtc (adjacent data).

(** The call chain of [find_root]: the call [find_root(hostname, visited)]
    makes the call [find_root(neighbor, visited)] of line 172, the set
    having received [hostname] on line 171. *)
Inductive find_root_calls (data : adjacency)
  : string * gset string → string * gset string → Prop :=
| find_root_calls_first hostname visited neighbor rest :
    hostname ∉ visited →
    is_backbone hostname = false →
    data !! hostname = Some (neighbor :: rest) →
    is_backbone neighbor = false →
    find_root_calls data (hostname, visited) (neighbor, {[hostname]} ∪ visited).

(** *** Adjacency sources of the examples *)

(** An access device whose second neighbour is backbone. *)
Definition second_neighbor_data : adjacency :=
  list_to_map
    [ ("lab-a1.example.com", [ "lab-a2.example.com"; "lab-pe1.example.com" ]);
      ("lab-a2.example.com", [ "lab-a1.example.com" ]);
      ("lab-pe1.example.com", [ "lab-a1.example.com" ]) ].

(** Two access devices that list each other and no backbone device. *)
Definition two_cycle_data : adjacency :=
  list_to_map
    [ ("lab-a1.example.com", [ "lab-a2.example.com" ]);
      ("lab-a2.example.com", [ "lab-a1.example.com" ]) ].

(** A backbone device with two access devices; the second one lists a
    device that is not a key of the source. *)
Definition missing_leaf_data : adjacency :=
  list_to_map
    [ ("lab-pe1.example.com", [ "lab-a1.example.com"; "lab-a2.example.com" ]);
      ("lab-a1.example.com", [ "lab-pe1.example.com" ]);
      ("lab-a2.example.com", [ "lab-pe1.example.com"; "lab-a9.example.com" ]) ].

(** A backbone device with a ring of three access devices behind it. *)
Definition ring_data : adjacency :=
  list_to_map
    [ ("lab-pe1.example.com", [ "lab-a1.example.com" ]);
      ("lab-a1.example.com",
        [ "lab-pe1.example.com"; "lab-a2.example.com"; "lab-a3.example.com" ]);
      ("lab-a2.example.com", [ "lab-a1.example.com"; "lab-a3.example.com" ]);
      ("lab-a3.example.com", [ "lab-a2.example.com"; "lab-a1.example.com" ]) ].


(** *** Depth of a node *)

(** The [while] loop of [_get_level]: [p] is the node that the loop is at,
    [None] for the end of the chain.  An object of the class is always
    true in a test. *)
Fixpoint get_level_loop (σ : State) (fuel : nat) (p : option addr) (level : nat)
  : result nat :=
  match fuel with
  | 0 => OutOfFuel
  | S fuel' =>
      match p with
      | None => Ok level
      | Some a => get_level_loop σ fuel' (parent_of σ a) (level + 1)
      end
  end.

Definition _get_level (σ : State) (fuel : nat) (self : addr) : result nat :=
  get_level_loop σ fuel (parent_of σ self) 0.

(** *** A variant of the builder that does not descend into the parent

    The loop of [find_neighbors] as section 4.3 of the specification words
    its step 5: a candidate that is the parent of the node is left alone and
    [find_neighbors] is not called on it.  The node is still marked as
    visited, as the program does. *)
Fixpoint attach_loop_no_descent (recurse : addr → traversal → traversal * result ())
    (self : addr) (dependant_neighbors : list string) (t : traversal)
  : traversal * result () :=
  match dependant_neighbors with
  | [] => (t, Ok ())
  | neighbor :: rest =>
      let visited1 := {[self]} ∪ t.1 in
      let is_parent :=
        match get_existing_node neighbor t.2 with
        | Some candidate => bool_decide (parent_of t.2 self = Some candidate)
        | None => false
        end in
      if is_parent then attach_loop_no_descent recurse self rest (visited1, t.2)
      else
        let '(child_node, σ1) := _add_child self neighbor t.2 in
        match recurse child_node (visited1, σ1) with
        | (t2, Ok _) => attach_loop_no_descent recurse self rest t2
        | (t2, KeyError key) => (t2, KeyError key)
        | (t2, OutOfFuel) => (t2, OutOfFuel)
        end
  end.

Fixpoint find_neighbors_no_descent (data : adjacency) (fuel : nat) (self : addr)
    (t : traversal) : traversal * result () :=
  match fuel with
  | 0 => (t, OutOfFuel)
  | S fuel' =>
      if decide (self ∈ t.1) then (t, Ok ())
      else
        match dependants data (hostname_of t.2 self) with
        | Ok dependant_neighbors =>
            attach_loop_no_descent (find_neighbors_no_descent data fuel') self
              dependant_neighbors t
        | KeyError key => (t, KeyError key)
        | OutOfFuel => (t, OutOfFuel)
        end
  end.

(** *** Properties of the nodes *)

(** Every registered object exists. *)
Definition registry_valid (σ : State) : Prop :=
  ∀ h a, get_existing_node h σ = Some a → a < length (heap σ).

(** Every parent pointer designates a node of the visited set. *)
Definition parents_visited (t : traversal) : Prop :=
  ∀ a p, parent_of t.2 a = Some p → p ∈ t.1.

(** A node is in the list of children of the node that its parent pointer
    designates. *)
Definition parent_listed (σ : State) : Prop :=
  ∀ a p, parent_of σ a = Some p → a ∈ children_of σ p.

(** The agreement that the specification states: a node is in the list of
    children of [p] exactly when its parent pointer designates [p]. *)
Definition children_agree (σ : State) : Prop :=
  ∀ a p, a < length (heap σ) → p < length (heap σ) →
         (a ∈ children_of σ p ↔ parent_of σ a = Some p).

(** The node reached after [n] parent hops. *)
Fixpoint ancestor (σ : State) (n : nat) (a : addr) : option addr :=
  match n with
  | 0 => Some a
  | S n' => p ← parent_of σ a; ancestor σ n' p
  end.

(** The nodes that can be reached from a node through the lists of
    children. *)
Inductive descendant (σ : State) (root : addr) : addr → Prop :=
| descendant_root : descendant σ root root
| descendant_child p a :
    descendant σ root p → a ∈ children_of σ p → descendant σ root a.

(** The tree that the specification states: every node that can be reached
    from the root has a path back to the root via parent pointers, and the
    root has no parent. *)
Definition parent_paths_to_root (σ : State) (root : addr) : Prop :=
  parent_of σ root = None
  ∧ ∀ a, descendant σ root a → ∃ n, ancestor σ n a = Some root.

(** *** A bound on the work that a traversal has left *)

(** The hostnames that the source lists as neighbours. *)
Definition mentioned (data : adjacency) : gset string :=
  ⋃ (list_to_set <$> (map_to_list data).*2).

(** The objects that are not visited and the listed hostnames that have no
    object yet. *)
Definition unexplored (data : adjacency) (t : traversal) : nat :=
  size (set_seq 0 (length (heap t.2)) ∖ t.1 : gset nat)
  + size (mentioned data ∖ dom (existing_nodes t.2)).


(** [t'] comes after [t] in a traversal: objects and visits are only added
    and the work that is left does not grow. *)
Definition extends (data : adjacency) (t t' : traversal) : Prop :=
  registry_valid t'.2
  ∧ length (heap t.2) ≤ length (heap t'.2)
  ∧ t.1 ⊆ t'.1
  ∧ unexplored data t' ≤ unexplored data t.


(** *** The nodes of the examples *)

(** The nodes that [main] leaves on the example of the program. *)
Definition sweden_nodes : list Node :=
  [ mkNode "sweden-pe1.example.com" None [1; 5; 7; 8];
    mkNode "sweden-a1.example.com" (Some 0) [2; 4];
    mkNode "sweden-a3.example.com" (Some 1) [3];
    mkNode "sweden-a7.example.com" (Some 2) [];
    mkNode "sweden-a5.example.com" (Some 1) [];
    mkNode "sweden-a2.example.com" (Some 0) [6];
    mkNode "sweden-a6.example.com" (Some 5) [];
    mkNode "sweden-a4.example.com" (Some 0) [];
    mkNode "denmark-pe2.example.com" (Some 0) [9];
    mkNode "denmark-a1.example.com" (Some 8) [] ].

(** The nodes that the builder leaves on [ring_data]. *)
Definition ring_nodes : list Node :=
  [ mkNode "lab-pe1.example.com" None [1];
    mkNode "lab-a1.example.com" (Some 3) [2];
    mkNode "lab-a2.example.com" (Some 1) [3];
    mkNode "lab-a3.example.com" (Some 2) [1] ].


(** *** Printing the tree *)

(** [s * n] on strings. *)
Fixpoint str_mul (s : string) (n : nat) : string :=
  match n with
  | 0 => ""
  | S n' => s +:+ str_mul s n'
  end.

(** The line that [print_tree] prints for a node of a given level:
    [prefix + self.hostname], where [prefix] is
    [spaces + "|--" if self.parent else ""] and [spaces] is
    [" " * level * 3]. *)
Definition tree_line (σ : State) (self : addr) (level : nat) : string :=
  let spaces := str_mul (str_mul " " level) 3 in
  let prefix := match parent_of σ self with
                | Some _ => spaces +:+ "|--"
                | None => ""
                end in
  prefix +:+ hostname_of σ self.

(** The loop [for child in self.children: child.print_tree()]; [recurse] is
    [print_tree] itself.  The value is the list of the lines printed. *)
Fixpoint print_children (recurse : addr → result (list string)) (children : list addr)
  : result (list string) :=
  match children with
  | [] => Ok []
  | child :: rest =>
      lines ← recurse child;
      more ← print_children recurse rest;
      Ok (lines ++ more)
  end.

(** [self.print_tree()]: the lines that it prints, in order.  The test
    [if self.children] only skips a loop over an empty list. *)
Fixpoint print_tree (σ : State) (fuel : nat) (self : addr) : result (list string) :=
  match fuel with
  | 0 => OutOfFuel
  | S fuel' =>
      level ← _get_level σ fuel self;
      lines ← print_children (print_tree σ fuel') (children_of σ self);
      Ok (tree_line σ self level :: lines)
  end.

(** *** The source cut down to the first neighbour of every device *)
Definition first_neighbors (data : adjacency) : adjacency := take 1 <$> data.

(** *** Properties of the nodes that a run on a fresh registry keeps *)

(** [σ'] holds the objects of [σ] under the hostnames that they had, and
    the registry entries of [σ]. *)
Definition stable (σ σ' : State) : Prop :=
  length (heap σ) ≤ length (heap σ')
  ∧ (∀ a, a < length (heap σ) → hostname_of σ' a = hostname_of σ a)
  ∧ (∀ h a, get_existing_node h σ = Some a → get_existing_node h σ' = Some a).

(** The registry and the objects name each other: one object per
    hostname. *)
Definition names_registered (σ : State) : Prop :=
  (∀ h a, get_existing_node h σ = Some a →
          a < length (heap σ) ∧ hostname_of σ a = h)
  ∧ (∀ a, a < length (heap σ) → get_existing_node (hostname_of σ a) σ = Some a).

(** [hc] is in the list of dependants that [find_neighbors] computes for
    the hostname [hp]. *)
Definition dependant_of (data : adjacency) (hp hc : string) : Prop :=
  ∃ deps, dependants data hp = Ok deps ∧ hc ∈ deps.

(** Every entry of a list of children is an object whose hostname is a
    dependant of the hostname of the parent. *)
Definition links_sound (data : adjacency) (σ : State) : Prop :=
  ∀ p c, c ∈ children_of σ p →
         c < length (heap σ) ∧ dependant_of data (hostname_of σ p) (hostname_of σ c).

(** Every parent pointer designates an object, and every object but the
    root has one. *)
Definition parents_valid (σ : State) : Prop :=
  ∀ a p, parent_of σ a = Some p → p < length (heap σ).

Definition attached (σ : State) (root : addr) : Prop :=
  ∀ a, a < length (heap σ) → a ≠ root → is_Some (parent_of σ a).

Definition well_built (data : adjacency) (root : addr) (σ : State) : Prop :=
  names_registered σ ∧ links_sound data σ ∧ parents_valid σ ∧ attached σ root.

(** * Properties *)

(** ** The matcher agrees with the meaning of the expressions *)

Section RegexTheory.

Lemma nullable_matches b r : nullable b r = true ↔ matches b r [].
Proof.
  split.
  - induction r as [| | |c|p|r1 IH1 r2 IH2|r1 IH1 r2 IH2|r IH]; simpl; intros H;
      try discriminate.
    + constructor.
    + subst b. constructor.
    + apply andb_true_iff in H as [H1 H2].
      apply (M_Cat b r1 r2 [] []); simpl; auto.
    + apply orb_true_iff in H as [H|H]; [apply M_AltL|apply M_AltR]; auto.
    + constructor.
  - intros H. remember [] as s eqn:Es.
    induction H as [b| |b c|b p c Hp|b r1 r2 s1 s2 H1 IH1 H2 IH2
                   |b r1 r2 s H IH|b r1 r2 s H IH|b r|b r s1 s2 H1 IH1 H2 IH2];
      simpl; try done.
    + apply app_eq_nil in Es as [-> ->]. simpl in *.
      rewrite IH1, IH2 by done. done.
    + rewrite IH by done. done.
    + rewrite IH by done. apply orb_true_r.
Qed.

Lemma matches_deriv b c r s : matches b r (c :: s) → matches false (deriv b c r) s.
Proof.
  intros H. remember (c :: s) as w eqn:Ew. revert s Ew.
  induction H as [b| |b c'|b p c' Hp|b r1 r2 s1 s2 H1 IH1 H2 IH2
                 |b r1 r2 s' H IH|b r1 r2 s' H IH|b r|b r s1 s2 H1 IH1 H2 IH2];
    intros s Ew; simpl; try discriminate.
  - injection Ew as -> <-. rewrite N.eqb_refl. constructor.
  - injection Ew as -> <-. rewrite Hp. constructor.
  - destruct s1 as [|c1 s1]; simpl in *.
    + subst s2. apply M_AltR.
      apply nullable_matches in H1. rewrite H1. by apply IH2.
    + injection Ew as -> <-. apply M_AltL.
      apply M_Cat; [by apply IH1|]. by destruct s1.
  - apply M_AltL. by apply IH.
  - apply M_AltR. by apply IH.
  - destruct s1 as [|c1 s1]; simpl in *.
    + by apply IH2.
    + injection Ew as -> <-.
      apply M_Cat; [by apply IH1|]. by destruct s1.
Qed.

Lemma deriv_matches b c r s : matches false (deriv b c r) s → matches b r (c :: s).
Proof.
  revert s.
  induction r as [| | |c'|p|r1 IH1 r2 IH2|r1 IH1 r2 IH2|r IH]; simpl; intros s H;
    try (by inversion H).
  - destruct (N.eqb_spec c c') as [->|]; inversion H; subst. constructor.
  - destruct (p c) eqn:Hp; inversion H; subst. by constructor.
  - inversion H as [| | | | |? ? ? ? Hl|? ? ? ? Hr| |]; subst.
    + inversion Hl as [| | | |? ? ? s1 s2 Ha Hb| | | |]; subst.
      apply (M_Cat b r1 r2 (c :: s1) s2); [by apply IH1|].
      simpl. by destruct s1.
    + destruct (nullable b r1) eqn:Hn; [|by inversion Hr].
      apply (M_Cat b r1 r2 [] (c :: s)); [by apply nullable_matches|].
      simpl. by apply IH2.
  - inversion H; subst; [apply M_AltL|apply M_AltR]; auto.
  - inversion H as [| | | |? ? ? s1 s2 Ha Hb| | | |]; subst.
    apply (M_Star_app b r (c :: s1) s2); [by apply IH|].
    simpl. by destruct s1.
Qed.

(** [match_here] finds a prefix that the expression matches. *)
Lemma match_here_spec b r s :
  match_here b r s = true ↔ ∃ s1 s2, s = s1 ++ s2 ∧ matches b r s1.
Proof.
  revert b r. induction s as [|c s IH]; intros b r; simpl.
  - rewrite orb_false_r, nullable_matches. split.
    + intros H. by exists [], [].
    + intros (s1 & s2 & E & H). symmetry in E.
      apply app_eq_nil in E as [-> ->]. done.
  - rewrite orb_true_iff, nullable_matches, IH. split.
    + intros [H|(s1 & s2 & -> & H)].
      * by exists [], (c :: s).
      * exists (c :: s1), s2. split; [done|]. by apply deriv_matches.
    + intros (s1 & s2 & E & H). destruct s1 as [|c1 s1]; [by left|].
      simpl in E. injection E as <- ->. right.
      exists s1, s2. split; [done|]. by apply matches_deriv.
Qed.

(** [search_from] finds an occurrence anywhere; the occurrence is at the
    beginning of the string only if nothing precedes it. *)
Lemma search_from_spec b r s :
  search_from b r s = true ↔
  ∃ s0 s1 s2, s = s0 ++ s1 ++ s2 ∧ matches (still_bol b s0) r s1.
Proof.
  revert b. induction s as [|c s IH]; intros b; cbn [search_from].
  - rewrite orb_false_r, match_here_spec. split.
    + intros (s1 & s2 & E & H). by exists [], s1, s2.
    + intros (s0 & s1 & s2 & E & H). symmetry in E.
      apply app_eq_nil in E as [-> E]. apply app_eq_nil in E as [-> ->].
      by exists [], [].
  - rewrite orb_true_iff, IH, match_here_spec. split.
    + intros [(s1 & s2 & E & H)|(s0 & s1 & s2 & -> & H)].
      * by exists [], s1, s2.
      * exists (c :: s0), s1, s2. split; [done|]. simpl. by destruct s0.
    + intros (s0 & s1 & s2 & E & H). destruct s0 as [|c0 s0].
      * left. by exists s1, s2.
      * simpl in E. injection E as <- ->. right.
        exists s0, s1, s2. split; [done|]. simpl in H. by destruct s0.
Qed.

End RegexTheory.

(** ** The backbone pattern *)

Section Pattern.

Lemma matches_Cat_inv b r1 r2 s :
  matches b (Cat r1 r2) s →
  ∃ s1 s2, s = s1 ++ s2 ∧ matches b r1 s1 ∧ matches (still_bol b s1) r2 s2.
Proof. inversion 1; subst; eauto. Qed.

Lemma matches_Lit_inv b c s : matches b (Lit c) s → s = [c].
Proof. by inversion 1. Qed.

Lemma matches_Bol_inv b s : matches b Bol s → s = [] ∧ b = true.
Proof. by inversion 1. Qed.

Lemma matches_Opt_inv b c s : matches b (Opt (Lit c)) s → s = [] ∨ s = [c].
Proof.
  unfold Opt. inversion 1 as [| | | | |? ? ? ? H1|? ? ? ? H1| |]; subst.
  - right. by inversion H1.
  - left. by inversion H1.
Qed.

(** A starred class matches the runs of characters of the class. *)
Lemma matches_Star_Class b p s :
  matches b (Star (Class p)) s ↔ Forall (λ c, p c = true) s.
Proof.
  split.
  - intros H. remember (Star (Class p)) as r eqn:Er.
    induction H as [| | | | | | | |b r s1 s2 H1 _ H2 IH2]; try discriminate.
    + constructor.
    + injection Er as ->. inversion H1; subst. simpl. constructor; auto.
  - revert b. induction s as [|c s IH]; intros b H.
    + constructor.
    + apply Forall_cons in H as [Hc Hs].
      apply (M_Star_app b (Class p) [c] s); [by constructor|]. apply IH, Hs.
Qed.

Lemma matches_Plus_Class b p s :
  matches b (Plus (Class p)) s ↔ s ≠ [] ∧ Forall (λ c, p c = true) s.
Proof.
  unfold Plus. split.
  - intros (s1 & s2 & -> & H1 & H2)%matches_Cat_inv.
    inversion H1; subst. apply matches_Star_Class in H2.
    split; [done|]. simpl. by constructor.
  - intros [Hne H]. destruct s as [|c s]; [done|].
    apply Forall_cons in H as [Hc Hs].
    apply (M_Cat b (Class p) _ [c] s); [by constructor|].
    by apply matches_Star_Class.
Qed.

(** One label with its dash. *)
Lemma matches_dash_label b s :
  matches b (Cat (Plus (Class word)) (Lit (code "-"))) s ↔
  ∃ l, label l ∧ s = l ++ [(code "-")].
Proof.
  split.
  - intros (s1 & s2 & -> & H1 & H2)%matches_Cat_inv.
    apply matches_Plus_Class in H1. apply matches_Lit_inv in H2 as ->.
    by exists s1.
  - intros (l & Hl & ->). apply M_Cat; [by apply matches_Plus_Class|].
    constructor.
Qed.

Lemma matches_Star_dash_label b s :
  matches b (Star (Cat (Plus (Class word)) (Lit (code "-")))) s ↔
  ∃ labels, Forall label labels ∧ s = dashed labels.
Proof.
  split.
  - intros H. remember (Star (Cat (Plus (Class word)) (Lit (code "-")))) as r eqn:Er.
    induction H as [| | | | | | | |b r s1 s2 H1 _ H2 IH2]; try discriminate.
    + by exists [].
    + injection Er as ->. apply matches_dash_label in H1 as (l & Hl & ->).
      destruct (IH2 eq_refl) as (labels & Hls & ->).
      exists (l :: labels). split; [by constructor|done].
  - intros (labels & Hls & ->). revert b.
    induction Hls as [|l labels Hl Hls IH]; intros b.
    + constructor.
    + change (dashed (l :: labels)) with ((l ++ [(code "-")]) ++ dashed labels).
      apply M_Star_app; [|by apply IH].
      apply matches_dash_label. by exists l.
Qed.

Lemma matches_dash_labels b s :
  matches b dash_labels s ↔
  ∃ labels, labels ≠ [] ∧ Forall label labels ∧ s = dashed labels.
Proof.
  unfold dash_labels, Plus at 1. split.
  - intros (s1 & s2 & -> & H1 & H2)%matches_Cat_inv.
    apply matches_dash_label in H1 as (l & Hl & ->).
    apply matches_Star_dash_label in H2 as (labels & Hls & ->).
    exists (l :: labels). split; [done|]. split; [by constructor|done].
  - intros (labels & Hne & Hls & ->). destruct labels as [|l labels]; [done|].
    apply Forall_cons in Hls as [Hl Hls].
    change (dashed (l :: labels)) with ((l ++ [(code "-")]) ++ dashed labels).
    apply M_Cat.
    + apply matches_dash_label. by exists l.
    + apply matches_Star_dash_label. by exists labels.
Qed.

(** What the pattern of the program matches, at the beginning of a
    string and nowhere else. *)
Lemma matches_REGEXP_PE_PATTERN b s :
  matches b REGEXP_PE_PATTERN s ↔
  b = true ∧
  ∃ labels e digits,
    labels ≠ [] ∧ Forall label labels ∧ (e = [] ∨ e = [(code "e")]) ∧ number digits ∧
    s = dashed labels ++ (code "p") :: e ++ digits ++ [(code ".")].
Proof.
  unfold REGEXP_PE_PATTERN. split.
  - intros (s0 & s1 & -> & [-> ->]%matches_Bol_inv & H)%matches_Cat_inv.
    split; [done|]. simpl in *.
    apply matches_Cat_inv in H as (sl & s2 & -> & Hl & H).
    apply matches_dash_labels in Hl as (labels & Hne & Hls & ->).
    apply matches_Cat_inv in H as (sp & s3 & -> & ->%matches_Lit_inv & H).
    apply matches_Cat_inv in H as (e & s4 & -> & He%matches_Opt_inv & H).
    apply matches_Cat_inv in H as (digits & s5 & -> & Hd & ->%matches_Lit_inv).
    apply matches_Plus_Class in Hd.
    by exists labels, e, digits.
  - intros (-> & labels & e & digits & Hne & Hls & He & Hd & ->).
    apply (M_Cat true Bol _ [] _); [constructor|]. simpl.
    apply M_Cat; [apply matches_dash_labels; eauto|].
    apply (M_Cat _ (Lit (code "p")) _ [(code "p")]); [constructor|].
    apply M_Cat.
    { destruct He as [->| ->]; [apply M_AltR|apply M_AltL]; constructor. }
    apply M_Cat; [by apply matches_Plus_Class|constructor].
Qed.

End Pattern.

(** C1, as amended.  A hostname is backbone, for [find_root] and for
    [find_neighbors], exactly when it begins with one or more labels of word
    characters, each followed by a dash, followed by a literal [p], an
    optional [e], one or more digits and a dot.  Word characters and digits
    are those of [\w] and [\d] in a [str] pattern: the alphanumeric
    characters of Unicode with the underscore, and its decimal digits; the
    hostname is any [str]. *)
Theorem is_backbone_iff_shape (h : string) :
  is_backbone h = true ↔ backbone_shape h.
Proof.
  unfold is_backbone, search, backbone_shape.
  rewrite search_from_spec. split.
  - intros (s0 & s1 & s2 & E & H).
    apply matches_REGEXP_PE_PATTERN in H
      as (Hb & labels & e & digits & Hne & Hls & He & Hd & ->).
    destruct s0; [|done]. exists labels, e, digits, s2.
    repeat split; try done; try apply Hd.
    rewrite E. simpl. rewrite <- !app_assoc. simpl. by rewrite <- !app_assoc.
  - intros (labels & e & digits & rest & Hne & Hls & He & Hd & E).
    exists [], (dashed labels ++ (code "p") :: e ++ digits ++ [(code ".")]), rest.
    split.
    + rewrite E. simpl. rewrite <- !app_assoc. simpl. by rewrite <- !app_assoc.
    + apply matches_REGEXP_PE_PATTERN. split; [done|].
      by exists labels, e, digits.
Qed.

(** The hostname of the specification's example is backbone, and so is a
    [P] node, whose last label has no [e].  A letter and a decimal digit
    from outside ASCII count as a word character and as a digit; the
    superscript two is not a decimal digit. *)
Example is_backbone_examples :
  is_backbone "region-pe1.domain" = true
  ∧ is_backbone "sweden-pe1.example.com" = true
  ∧ is_backbone "core-p1.example.com" = true
  ∧ is_backbone "lab-e1.example.com" = false
  ∧ is_backbone "sweden-a1.example.com" = false
  ∧ is_backbone "pe1.example.com" = false
  ∧ is_backbone "é-pe1.example.com" = true
  ∧ is_backbone "lab-pe١.example.com" = true
  ∧ is_backbone "lab-pe².example.com" = false.
Proof. by vm_compute. Qed.

(** C1, as the specification states it, fails: [lab-e1.example.com] has the
    shape that the specification describes (the optional [p] left out, then
    [e], a digit and the dot) and is not backbone for the program. *)
Lemma claimed_shape_counterexample :
  ¬ (∀ h : string, is_backbone h = true ↔ claimed_backbone_shape h).
Proof.
  intros H. specialize (H "lab-e1.example.com").
  assert (Hc : claimed_backbone_shape "lab-e1.example.com").
  { exists [decode_utf8 "lab"], [], [(code "1")], (decode_utf8 "example.com").
    split; [done|]. split.
    { constructor; [|constructor]. split; [done|].
      repeat constructor. }
    split; [by left|]. split; [|done].
    split; [done|]. repeat constructor. }
  apply H in Hc. vm_compute in Hc. discriminate.
Qed.

(** ** The classifier *)

Section Classifier.

Variable pattern : regex.

Local Abbreviation hit := (matched pattern).

Lemma split_list_by_regex_cons item lst :
  split_list_by_regex (item :: lst) pattern
  = let '(yes, no) := split_list_by_regex lst pattern in
    if search pattern item then (item :: yes, no) else (yes, item :: no).
Proof. unfold split_list_by_regex. simpl. by destruct (search pattern item). Qed.

Lemma split_partitions lst :
  partitions hit lst (split_list_by_regex lst pattern).1
                     (split_list_by_regex lst pattern).2.
Proof.
  induction lst as [|item lst IH]; [constructor|].
  rewrite split_list_by_regex_cons.
  destruct (split_list_by_regex lst pattern) as [yes no]. simpl in IH.
  destruct (search pattern item) eqn:E; simpl.
  - by apply partitions_yes.
  - apply partitions_no; [|done]. unfold matched. by rewrite E.
Qed.

(** A stable partition is determined by the list. *)
Lemma partitions_unique lst yes no yes' no' :
  partitions hit lst yes no → partitions hit lst yes' no' →
  yes = yes' ∧ no = no'.
Proof.
  intros H. revert yes' no'.
  induction H as [|x lst yes no Hx H IH|x lst yes no Hx H IH];
    intros yes' no' H'; inversion H'; subst; try done;
    destruct (IH _ _ ltac:(eassumption)) as [-> ->]; done.
Qed.

Lemma partitions_sublist lst yes no :
  partitions hit lst yes no → sublist yes lst ∧ sublist no lst.
Proof.
  induction 1 as [|x lst yes no Hx H [IH1 IH2]|x lst yes no Hx H [IH1 IH2]];
    split; try done; by constructor.
Qed.

Lemma partitions_Permutation lst yes no :
  partitions hit lst yes no → lst ≡ₚ yes ++ no.
Proof.
  induction 1 as [|x lst yes no Hx H IH|x lst yes no Hx H IH]; simpl.
  - done.
  - by constructor.
  - rewrite IH. apply Permutation_middle.
Qed.

Lemma partitions_elem_of lst yes no :
  partitions hit lst yes no →
  (∀ x, x ∈ yes ↔ x ∈ lst ∧ hit x) ∧ (∀ x, x ∈ no ↔ x ∈ lst ∧ ¬ hit x).
Proof.
  induction 1 as [|y lst yes no Hy H [IH1 IH2]|y lst yes no Hy H [IH1 IH2]].
  - split; intros x; rewrite !elem_of_nil; tauto.
  - split; intros x; rewrite ?elem_of_cons, ?IH1, ?IH2;
      intuition (subst; auto); done.
  - split; intros x; rewrite ?elem_of_cons, ?IH1, ?IH2;
      intuition (subst; auto); done.
Qed.

Lemma split_elem_of lst :
  (∀ x, x ∈ (split_list_by_regex lst pattern).1 ↔ x ∈ lst ∧ search pattern x = true)
  ∧ (∀ x, x ∈ (split_list_by_regex lst pattern).2 ↔ x ∈ lst ∧ search pattern x = false).
Proof.
  destruct (partitions_elem_of _ _ _ (split_partitions lst)) as [H1 H2].
  split; [done|]. intros x. rewrite H2. unfold matched.
  by rewrite not_true_iff_false.
Qed.

End Classifier.

(** C8.  For every list and every pattern [split_list_by_regex] returns (it
    is a total function) two lists that are a stable partition of the input:
    the first holds exactly the items that the pattern matches, the second
    exactly the others, both in the order of the input and with the
    multiplicities of the input; an empty input gives two empty lists. *)
Theorem split_list_by_regex_partition (lst : list string) (pattern : regex) :
  ∃ yes no,
    split_list_by_regex lst pattern = (yes, no)
    ∧ partitions (matched pattern) lst yes no
    ∧ (∀ yes' no', partitions (matched pattern) lst yes' no' →
                   yes' = yes ∧ no' = no)
    ∧ (∀ x, x ∈ yes ↔ x ∈ lst ∧ search pattern x = true)
    ∧ (∀ x, x ∈ no ↔ x ∈ lst ∧ search pattern x = false)
    ∧ sublist yes lst ∧ sublist no lst
    ∧ lst ≡ₚ yes ++ no
    ∧ split_list_by_regex [] pattern = ([], []).
Proof.
  pose proof (split_partitions pattern lst) as H.
  destruct (split_list_by_regex lst pattern) as [yes no] eqn:E. simpl in H.
  exists yes, no. split; [done|]. split; [done|].
  split; [intros yes' no' H'; by apply (partitions_unique pattern lst)|].
  destruct (partitions_elem_of _ _ _ _ H) as [H1 H2].
  destruct (partitions_sublist _ _ _ _ H) as [H3 H4].
  split; [done|]. split.
  { intros x. rewrite H2. unfold matched. by rewrite not_true_iff_false. }
  split; [done|]. split; [done|].
  split; [by apply (partitions_Permutation pattern)|done].
Qed.

(** The classifier on the neighbours of the root of the example. *)
Example split_list_by_regex_sweden :
  split_list_by_regex
    [ "norway-pe1.example.com"; "finland-pe1.example.com";
      "denmark-pe2.example.com"; "sweden-a1.example.com";
      "sweden-a2.example.com"; "sweden-a4.example.com" ] REGEXP_PE_PATTERN
  = ([ "norway-pe1.example.com"; "finland-pe1.example.com";
       "denmark-pe2.example.com" ],
     [ "sweden-a1.example.com"; "sweden-a2.example.com";
       "sweden-a4.example.com" ]).
Proof. by vm_compute. Qed.

(** ** The registry *)

(** C10.  [NetworkTreeNode(hostname)] allocates a new object, different from
    every object that exists, and registers it under its hostname whatever
    the registry held there before: [get_existing_node(hostname)] returns
    the new object.  Nothing else changes.  The constructor does not look
    the hostname up: two constructions give two nodes of one hostname, of
    which the registry keeps the second.  [_add_child] looks the hostname up
    first and constructs nothing when it is registered. *)
Theorem NetworkTreeNode_registers (hostname : string) (σ : State) :
  let '(self, σ1) := NetworkTreeNode hostname σ in
  get_existing_node hostname σ1 = Some self
  ∧ heap σ1 !! self = Some (mkNode hostname None [])
  ∧ (∀ old, is_Some (heap σ !! old) → old ≠ self)
  ∧ (∀ old n, heap σ !! old = Some n → heap σ1 !! old = Some n)
  ∧ length (heap σ1) = S (length (heap σ))
  ∧ (∀ h, h ≠ hostname → get_existing_node h σ1 = get_existing_node h σ)
  ∧ (let '(self2, σ2) := NetworkTreeNode hostname σ1 in
     self2 ≠ self
     ∧ hostname_of σ2 self = hostname ∧ hostname_of σ2 self2 = hostname
     ∧ get_existing_node hostname σ2 = Some self2)
  ∧ (∀ caller child,
       get_existing_node hostname σ = Some child →
       (_add_child caller hostname σ).1 = child
       ∧ length (heap (_add_child caller hostname σ).2) = length (heap σ)
       ∧ existing_nodes (_add_child caller hostname σ).2 = existing_nodes σ).
Proof.
  unfold NetworkTreeNode, get_existing_node, hostname_of; simpl.
  split; [by rewrite lookup_insert_eq|].
  split; [by rewrite lookup_app_r, Nat.sub_diag|].
  split; [intros old Hn%lookup_lt_is_Some; lia|].
  split; [intros old n Hn; by apply lookup_app_l_Some|].
  split; [rewrite length_app; simpl; lia|].
  split; [intros h Hh; by rewrite lookup_insert_ne|].
  split.
  - rewrite length_app. simpl. split; [lia|].
    split; [|split].
    + rewrite list_lookup_total_alt, lookup_app_l by (rewrite length_app; simpl; lia).
      by rewrite lookup_app_r, Nat.sub_diag.
    + rewrite list_lookup_total_alt, lookup_app_r by (rewrite length_app; simpl; lia).
      rewrite length_app. simpl.
      by replace (length (heap σ) + 1 - (length (heap σ) + 1)) with 0 by lia.
    + by rewrite lookup_insert_eq.
  - intros caller child Hc. unfold _add_child, get_existing_node. rewrite Hc.
    destruct (decide _); simpl; [done|].
    by rewrite !length_alter.
Qed.

(** ** The redundancy rule *)

Section Redundancy.

Variable data : adjacency.

Lemma subscript_Some key cdp : data !! key = Some cdp → subscript data key = Ok cdp.
Proof. unfold subscript. by intros ->. Qed.

Lemma subscript_None key : data !! key = None → subscript data key = KeyError key.
Proof. unfold subscript. by intros ->. Qed.

(** The loop appends, to what the list holds, the backbone neighbours
    that have fewer than two backbone neighbours, in their order. *)
Lemma redundancy_loop_filter mpls_neighbors dependant_neighbors :
  Forall (λ n, is_Some (data !! n)) mpls_neighbors →
  redundancy_loop data mpls_neighbors dependant_neighbors
  = Ok (dependant_neighbors
        ++ filter (λ n, length (backbone_neighbors data n) < 2) mpls_neighbors).
Proof.
  intros H. revert dependant_neighbors.
  induction H as [|n rest [cdp Hn] _ IH]; intros acc; simpl.
  - by rewrite app_nil_r.
  - rewrite (subscript_Some _ _ Hn). simpl.
    assert (Hb : backbone_neighbors data n
                 = comprehension (λ item, search REGEXP_PE_PATTERN item) cdp).
    { unfold backbone_neighbors. by rewrite Hn. }
    rewrite filter_cons.
    destruct (Nat.ltb_spec
      (length (comprehension (λ item, search REGEXP_PE_PATTERN item) cdp)) 2)
      as [Hlt|Hge].
    + rewrite decide_True by (by rewrite Hb).
      rewrite IH. by rewrite <- app_assoc.
    + rewrite decide_False by (rewrite Hb; lia). apply IH.
Qed.

(** The loop raises for the first backbone neighbour that the source
    does not hold. *)
Lemma redundancy_loop_KeyError before n after dependant_neighbors :
  Forall (λ n, is_Some (data !! n)) before → data !! n = None →
  redundancy_loop data (before ++ n :: after) dependant_neighbors = KeyError n.
Proof.
  intros H Hn. revert dependant_neighbors.
  induction H as [|m rest [cdp Hm] _ IH]; intros acc; simpl.
  - by rewrite (subscript_None _ Hn).
  - rewrite (subscript_Some _ _ Hm). simpl.
    destruct (Nat.ltb _ 2); apply IH.
Qed.

Lemma redundancy_loop_outcome mpls_neighbors dependant_neighbors :
  (∃ l, redundancy_loop data mpls_neighbors dependant_neighbors = Ok l)
  ∨ (∃ key, redundancy_loop data mpls_neighbors dependant_neighbors = KeyError key
            ∧ data !! key = None).
Proof.
  revert dependant_neighbors.
  induction mpls_neighbors as [|n rest IH]; intros acc; simpl; [eauto|].
  unfold subscript. destruct (data !! n) as [cdp|] eqn:Hn; simpl; [|eauto].
  destruct (Nat.ltb _ 2); apply IH.
Qed.

Lemma dependants_outcome h :
  (∃ l, dependants data h = Ok l)
  ∨ (∃ key, dependants data h = KeyError key ∧ data !! key = None).
Proof.
  unfold dependants, subscript.
  destruct (data !! h) as [cdp|] eqn:Hh; simpl; [|eauto].
  destruct (search REGEXP_PE_PATTERN h); [|eauto].
  apply redundancy_loop_outcome.
Qed.

End Redundancy.

(** C5.  Let [cdp_neighbors] be the neighbour list of the node and let every
    backbone neighbour be a key of the source.  When the node is backbone,
    the list of dependants that [find_neighbors] attaches is the list of the
    non-backbone neighbours followed by those backbone neighbours that have
    fewer than two backbone neighbours of their own, in the order of the
    neighbour list; a backbone neighbour with two or more is not in it.
    When the node is not backbone, it is the list of the non-backbone
    neighbours and nothing else. *)
Theorem dependants_redundancy_rule (data : adjacency) (h : string)
    (cdp_neighbors : list string) :
  data !! h = Some cdp_neighbors →
  Forall (λ n, is_Some (data !! n))
         (split_list_by_regex cdp_neighbors REGEXP_PE_PATTERN).1 →
  let mpls_neighbors := (split_list_by_regex cdp_neighbors REGEXP_PE_PATTERN).1 in
  let dependant_neighbors := (split_list_by_regex cdp_neighbors REGEXP_PE_PATTERN).2 in
  dependants data h
  = Ok (if is_backbone h
        then dependant_neighbors
             ++ filter (λ n, length (backbone_neighbors data n) < 2) mpls_neighbors
        else dependant_neighbors)
  ∧ (∀ n, is_backbone n = true →
       (∃ l, dependants data h = Ok l ∧
             (n ∈ l ↔ is_backbone h = true ∧ n ∈ cdp_neighbors
                      ∧ length (backbone_neighbors data n) < 2))).
Proof.
  intros Hh Hkeys mpls deps.
  assert (E : dependants data h
    = Ok (if is_backbone h
          then deps ++ filter (λ n, length (backbone_neighbors data n) < 2) mpls
          else deps)).
  { unfold dependants. rewrite (subscript_Some _ _ _ Hh). simpl.
    fold (is_backbone h). destruct (is_backbone h); [|done].
    by apply redundancy_loop_filter. }
  split; [done|]. intros n Hn. eexists. split; [done|].
  destruct (split_elem_of REGEXP_PE_PATTERN cdp_neighbors) as [Hyes Hno].
  fold mpls in Hyes. fold deps in Hno.
  assert (Hnot : n ∉ deps).
  { rewrite Hno. fold (is_backbone n). rewrite Hn. by intros [_ ?]. }
  destruct (is_backbone h).
  - rewrite elem_of_app, list_elem_of_filter, Hyes. fold (is_backbone n).
    split; [intros [?|[? [? ?]]]; [done|auto]|intros (_ & ? & ?); auto].
  - split; [done|]. by intros [? _].
Qed.

(** The root of the example: of its three backbone neighbours only
    [denmark-pe2] has fewer than two backbone neighbours. *)
Lemma dependants_redundancy_rule_witness :
  dependants STATIC_DATA "sweden-pe1.example.com"
  = Ok [ "sweden-a1.example.com"; "sweden-a2.example.com";
         "sweden-a4.example.com"; "denmark-pe2.example.com" ].
Proof.
  refine (eq_trans (proj1 (dependants_redundancy_rule STATIC_DATA
    "sweden-pe1.example.com"
    [ "norway-pe1.example.com"; "finland-pe1.example.com";
      "denmark-pe2.example.com"; "sweden-a1.example.com";
      "sweden-a2.example.com"; "sweden-a4.example.com" ] _ _)) _).
  - vm_compute. reflexivity.
  - apply (bool_decide_unpack _). vm_compute. reflexivity.
  - vm_compute. reflexivity.
Defined.

(** ** The root finder *)

Section FindRoot.

Variable data : adjacency.

Lemma find_root_visited fuel h visited :
  h ∈ visited → find_root data (S fuel) h visited = Ok None.
Proof. intros H. simpl. by rewrite decide_True. Qed.

Lemma find_root_backbone fuel h visited :
  h ∉ visited → is_backbone h = true →
  find_root data (S fuel) h visited = Ok (Some h).
Proof.
  intros H Hb. simpl. rewrite decide_False by done.
  fold (is_backbone h). by rewrite Hb.
Qed.

(** Past the two tests, [find_root] subscripts the source. *)
Lemma find_root_subscript fuel h visited :
  h ∉ visited → is_backbone h = false →
  find_root data (S fuel) h visited
  = cdp_neighbors ← subscript data h;
    match cdp_neighbors with
    | [] => Ok None
    | neighbor :: _ =>
        if is_backbone neighbor then Ok (Some neighbor)
        else find_root data fuel neighbor ({[h]} ∪ visited)
    end.
Proof.
  intros H Hb. simpl. rewrite decide_False by done.
  fold (is_backbone h). by rewrite Hb.
Qed.

Lemma find_root_absent fuel h visited :
  h ∉ visited → is_backbone h = false → data !! h = None →
  find_root data (S fuel) h visited = KeyError h.
Proof.
  intros H Hb Hh. rewrite find_root_subscript by done.
  by rewrite (subscript_None _ _ Hh).
Qed.

Lemma find_root_empty fuel h visited :
  is_backbone h = false → data !! h = Some [] →
  find_root data (S fuel) h visited = Ok None.
Proof.
  intros Hb Hh. destruct (decide (h ∈ visited)) as [Hv|Hv].
  - by apply find_root_visited.
  - rewrite find_root_subscript by done. by rewrite (subscript_Some _ _ _ Hh).
Qed.

(** Only the first neighbour counts: it is returned when it is backbone,
    and the search goes on from it when it is not. *)
Lemma find_root_first_backbone fuel h visited neighbor rest :
  h ∉ visited → is_backbone h = false →
  data !! h = Some (neighbor :: rest) → is_backbone neighbor = true →
  find_root data (S fuel) h visited = Ok (Some neighbor).
Proof.
  intros H Hb Hh Hn. rewrite find_root_subscript by done.
  rewrite (subscript_Some _ _ _ Hh). simpl. by rewrite Hn.
Qed.

Lemma find_root_call fuel h visited h' visited' :
  find_root_calls data (h, visited) (h', visited') →
  find_root data (S fuel) h visited = find_root data fuel h' visited'.
Proof.
  inversion 1 as [? ? neighbor rest Hv Hb Hh Hn]; subst.
  rewrite find_root_subscript by done.
  rewrite (subscript_Some _ _ _ Hh). simpl. by rewrite Hn.
Qed.

(** More fuel does not change an outcome. *)
Lemma find_root_mono fuel fuel' h visited :
  find_root data fuel h visited ≠ OutOfFuel → fuel ≤ fuel' →
  find_root data fuel' h visited = find_root data fuel h visited.
Proof.
  revert fuel' h visited.
  induction fuel as [|fuel IH]; intros fuel' h visited Hne Hle; [done|].
  destruct fuel' as [|fuel']; [lia|].
  destruct (decide (h ∈ visited)) as [Hv|Hv].
  { by rewrite !find_root_visited. }
  destruct (is_backbone h) eqn:Hb.
  { by rewrite !find_root_backbone. }
  rewrite find_root_subscript in Hne |- * by done.
  rewrite (find_root_subscript fuel) by done.
  destruct (subscript data h) as [[|n rest]| |]; simpl in *; try done.
  destruct (is_backbone n); [done|]. apply IH; [done|lia].
Qed.

(** The recursion is no deeper than the number of keys not yet visited. *)
Lemma find_root_terminates fuel h visited :
  size (dom data ∖ visited) < fuel →
  find_root data fuel h visited ≠ OutOfFuel.
Proof.
  revert h visited.
  induction fuel as [|fuel IH]; intros h visited Hsize; [lia|].
  destruct (decide (h ∈ visited)) as [Hv|Hv].
  { by rewrite find_root_visited. }
  destruct (is_backbone h) eqn:Hb.
  { by rewrite find_root_backbone. }
  rewrite find_root_subscript by done. unfold subscript.
  destruct (data !! h) as [[|n rest]|] eqn:Hh; simpl; try done.
  destruct (is_backbone n); [done|]. apply IH.
  assert (Hin : h ∈ dom data ∖ visited).
  { apply elem_of_difference. split; [by apply elem_of_dom|done]. }
  assert (Hsub : dom data ∖ ({[h]} ∪ visited) ⊂ dom data ∖ visited)
    by set_solver.
  apply subset_size in Hsub. lia.
Qed.

(** A [KeyError] names a key that the source does not hold. *)
Lemma find_root_KeyError fuel h visited key :
  find_root data fuel h visited = KeyError key → data !! key = None.
Proof.
  revert h visited.
  induction fuel as [|fuel IH]; intros h visited; [done|].
  destruct (decide (h ∈ visited)) as [Hv|Hv].
  { by rewrite find_root_visited. }
  destruct (is_backbone h) eqn:Hb.
  { by rewrite find_root_backbone. }
  rewrite find_root_subscript by done. unfold subscript.
  destruct (data !! h) as [[|n rest]|] eqn:Hh; simpl; try done.
  - destruct (is_backbone n); [done|]. apply IH.
  - by intros [= <-].
Qed.

(** Where no backbone device can be reached and every device that can be
    reached is a key, the walk ends with [None]. *)
Lemma find_root_none fuel h visited :
  (∀ h', reachable data h h' → is_backbone h' = false ∧ is_Some (data !! h')) →
  size (dom data ∖ visited) < fuel →
  find_root data fuel h visited = Ok None.
Proof.
  revert h visited.
  induction fuel as [|fuel IH]; intros h visited Hreach Hsize; [lia|].
  destruct (decide (h ∈ visited)) as [Hv|Hv].
  { by rewrite find_root_visited. }
  destruct (Hreach h) as [Hb [cdp Hh]]; [apply rtc_refl|].
  rewrite find_root_subscript by done.
  rewrite (subscript_Some _ _ _ Hh). simpl.
  destruct cdp as [|n rest]; [done|].
  assert (Hadj : adjacent data h n).
  { exists (n :: rest). split; [done|]. apply elem_of_cons. by left. }
  destruct (Hreach n) as [Hn _]; [by apply rtc_once|]. rewrite Hn.
  apply IH.
  - intros h' Hh'. apply Hreach. by eapply rtc_l.
  - assert (Hin : h ∈ dom data ∖ visited).
    { apply elem_of_difference. split; [by apply elem_of_dom|done]. }
    assert (Hsub : dom data ∖ ({[h]} ∪ visited) ⊂ dom data ∖ visited)
      by set_solver.
    apply subset_size in Hsub. lia.
Qed.

(** Along a call chain every call adds one new key of the source to the
    set: no identifier is entered twice. *)
Lemma find_root_chain n c c' :
  nsteps (find_root_calls data) n c c' →
  size c'.2 = size c.2 + n ∧ c'.2 ∖ c.2 ⊆ dom data.
Proof.
  induction 1 as [c|n c c1 c' Hstep _ [IH1 IH2]].
  - split; [lia|set_solver].
  - destruct Hstep as [h visited neighbor rest H Hb Hh Hn]. simpl in *.
    rewrite size_union, size_singleton in IH1 by set_solver.
    split; [lia|].
    assert (h ∈ dom data) by (by apply elem_of_dom).
    set_solver.
Qed.

End FindRoot.

(** [find_root] on the example of [main]. *)
Example find_root_sweden_a1 :
  find_root STATIC_DATA 2 "sweden-a1.example.com" ∅
  = Ok (Some "sweden-pe1.example.com")
  ∧ find_root STATIC_DATA 4 "sweden-a7.example.com" ∅
    = Ok (Some "sweden-pe1.example.com").
Proof. by vm_compute. Qed.

(** C3, on [second_neighbor_data].  The access device [lab-a1] lists
    [lab-a2] and then the backbone device [lab-pe1].  [find_root] goes on
    from [lab-a2], comes back to [lab-a1], which is visited, and returns
    [None]: it does not return the first backbone neighbour of the list. *)
Theorem find_root_misses_second_neighbor :
  second_neighbor_data !! "lab-a1.example.com"
  = Some [ "lab-a2.example.com"; "lab-pe1.example.com" ]
  ∧ is_backbone "lab-a1.example.com" = false
  ∧ first_backbone_neighbor [ "lab-a2.example.com"; "lab-pe1.example.com" ]
    = Some "lab-pe1.example.com"
  ∧ ∀ fuel, find_root second_neighbor_data (3 + fuel) "lab-a1.example.com" ∅
            = Ok None.
Proof.
  split; [by vm_compute|]. split; [by vm_compute|]. split; [by vm_compute|].
  intros fuel.
  rewrite (find_root_mono second_neighbor_data 3 (3 + fuel));
    [by vm_compute|by vm_compute|lia].
Qed.

(** C6.  (1) A call on an identifier of the visited set returns [None] at
    once.  (2) Along a call chain of [n] calls that starts with an empty set,
    the set has received [n] different identifiers, all keys of the source:
    no identifier is entered twice and the chain is no longer than the
    source has keys.  (3) Where every device that can be reached from the
    start is a key and is not backbone, [find_root] returns [None] with any
    fuel above the number of keys.  (4) Where two devices that are not
    backbone list each other first, [find_root] from either of them returns
    [None] with fuel 3.  (5) On an empty neighbour list [find_root] returns
    [None].  (6) On every source, with or without cycles, [find_root]
    returns or raises with any fuel above the number of keys. *)
Theorem find_root_cycle_none :
  (∀ data fuel h visited,
     h ∈ visited → find_root data (S fuel) h visited = Ok None)
  ∧ (∀ data n start h visited,
       nsteps (find_root_calls data) n (start, ∅) (h, visited) →
       size visited = n ∧ visited ⊆ dom data ∧ n ≤ size data)
  ∧ (∀ data start fuel,
       (∀ h, reachable data start h →
             is_backbone h = false ∧ is_Some (data !! h)) →
       size data < fuel →
       find_root data fuel start ∅ = Ok None)
  ∧ (∀ data a b rest_a rest_b fuel,
       is_backbone a = false → is_backbone b = false →
       data !! a = Some (b :: rest_a) → data !! b = Some (a :: rest_b) →
       3 ≤ fuel →
       find_root data fuel a ∅ = Ok None)
  ∧ (∀ data fuel h visited,
       is_backbone h = false → data !! h = Some [] →
       find_root data (S fuel) h visited = Ok None)
  ∧ (∀ data fuel start,
       size data < fuel → find_root data fuel start ∅ ≠ OutOfFuel).
Proof.
  split; [apply find_root_visited|].
  split.
  { intros data n start h visited [H1 H2]%find_root_chain. cbn [fst snd] in *.
    rewrite size_empty in H1. split; [done|].
    assert (Hsub : visited ⊆ dom data) by set_solver.
    split; [done|]. apply subseteq_size in Hsub.
    rewrite size_dom in Hsub. lia. }
  split.
  { intros data start fuel Hreach Hfuel. apply find_root_none; [done|].
    assert (Hsub : dom data ∖ ∅ ⊆ dom data) by set_solver.
    apply subseteq_size in Hsub. rewrite size_dom in Hsub. lia. }
  split; [|split; [intros; by apply find_root_empty|]].
  2:{ intros data fuel start Hfuel. apply find_root_terminates.
      assert (Hsub : dom data ∖ ∅ ⊆ dom data) by set_solver.
      apply subseteq_size in Hsub. rewrite size_dom in Hsub. lia. }
  intros data a b rest_a rest_b fuel Ha Hb Hda Hdb Hfuel.
  assert (E : find_root data 3 a ∅ = Ok None).
  { rewrite (find_root_call data 2 a ∅ b ({[a]} ∪ ∅))
      by (eapply find_root_calls_first; [set_solver|eassumption..]).
    destruct (decide (b = a)) as [->|Hne].
    { apply find_root_visited. set_solver. }
    rewrite (find_root_call data 1 b ({[a]} ∪ ∅) a ({[b]} ∪ ({[a]} ∪ ∅)))
      by (eapply find_root_calls_first; [set_solver|eassumption..]).
    apply find_root_visited. set_solver. }
  rewrite (find_root_mono data 3 fuel); [done|by rewrite E|done].
Qed.

(** The two devices of [two_cycle_data] list each other and nothing else. *)
Lemma find_root_cycle_none_witness :
  find_root two_cycle_data 3 "lab-a1.example.com" ∅ = Ok None.
Proof.
  apply (proj1 (proj2 (proj2 (proj2 find_root_cycle_none)))
           two_cycle_data "lab-a1.example.com" "lab-a2.example.com" [] [] 3).
  - vm_compute. reflexivity.
  - vm_compute. reflexivity.
  - vm_compute. reflexivity.
  - vm_compute. reflexivity.
  - lia.
Defined.

(** ** Nodes and the registry *)

Section Nodes.

Implicit Types (σ : State) (a self child : addr) (h : string).

Lemma hostname_of_set_parent child self σ a :
  hostname_of (set_parent child self σ) a = hostname_of σ a.
Proof.
  unfold hostname_of, set_parent. simpl.
  rewrite list_lookup_total_alter. by case_decide as H; [destruct H as [-> _]|].
Qed.

Lemma children_of_set_parent child self σ a :
  children_of (set_parent child self σ) a = children_of σ a.
Proof.
  unfold children_of, set_parent. simpl.
  rewrite list_lookup_total_alter. by case_decide as H; [destruct H as [-> _]|].
Qed.

Lemma parent_of_set_parent child self σ a :
  parent_of (set_parent child self σ) a
  = if decide (child = a ∧ child < length (heap σ)) then Some self
    else parent_of σ a.
Proof.
  unfold parent_of, set_parent. simpl.
  rewrite list_lookup_total_alter. by case_decide.
Qed.

Lemma hostname_of_append_child self child σ a :
  hostname_of (append_child self child σ) a = hostname_of σ a.
Proof.
  unfold hostname_of, append_child. simpl.
  rewrite list_lookup_total_alter. by case_decide as H; [destruct H as [-> _]|].
Qed.

Lemma parent_of_append_child self child σ a :
  parent_of (append_child self child σ) a = parent_of σ a.
Proof.
  unfold parent_of, append_child. simpl.
  rewrite list_lookup_total_alter. by case_decide as H; [destruct H as [-> _]|].
Qed.

Lemma children_of_append_child self child σ a :
  children_of (append_child self child σ) a
  = if decide (self = a ∧ self < length (heap σ)) then children_of σ self ++ [child]
    else children_of σ a.
Proof.
  unfold children_of, append_child. simpl.
  rewrite list_lookup_total_alter. by case_decide.
Qed.

(** An index out of range reads as a blank node. *)
Lemma blank_beyond σ a :
  length (heap σ) ≤ a → heap σ !!! a = mkNode "" None [].
Proof.
  intros H. rewrite list_lookup_total_alt.
  by rewrite (lookup_ge_None_2 (heap σ) a H).
Qed.

Lemma parent_of_NetworkTreeNode h σ a :
  parent_of (NetworkTreeNode h σ).2 a = parent_of σ a.
Proof.
  unfold parent_of, NetworkTreeNode. simpl.
  destruct (decide (a < length (heap σ))) as [Hlt|Hge].
  - by rewrite lookup_total_app_l.
  - rewrite lookup_total_app_r, blank_beyond by lia.
    by destruct (a - length (heap σ)) as [|[|?]].
Qed.

Lemma children_of_NetworkTreeNode h σ a :
  children_of (NetworkTreeNode h σ).2 a = children_of σ a.
Proof.
  unfold children_of, NetworkTreeNode. simpl.
  destruct (decide (a < length (heap σ))) as [Hlt|Hge].
  - by rewrite lookup_total_app_l.
  - rewrite lookup_total_app_r, blank_beyond by lia.
    by destruct (a - length (heap σ)) as [|[|?]].
Qed.

Lemma hostname_of_NetworkTreeNode h σ a :
  a < length (heap σ) → hostname_of (NetworkTreeNode h σ).2 a = hostname_of σ a.
Proof.
  intros Hlt. unfold hostname_of, NetworkTreeNode. simpl.
  by rewrite lookup_total_app_l.
Qed.

(** *** [_add_child] *)

(** The candidate is the parent: nothing happens. *)
Lemma add_child_parent self h σ child :
  get_existing_node h σ = Some child → parent_of σ self = Some child →
  _add_child self h σ = (child, σ).
Proof.
  intros Hc Hp. unfold _add_child. rewrite Hc. by rewrite decide_True.
Qed.

Lemma add_child_length self h σ :
  length (heap (_add_child self h σ).2)
  = match get_existing_node h σ with
    | Some _ => length (heap σ)
    | None => S (length (heap σ))
    end.
Proof.
  unfold _add_child.
  destruct (get_existing_node h σ) as [child|]; simpl;
    destruct (decide _); simpl; rewrite ?length_alter, ?length_app; simpl; lia.
Qed.

Lemma add_child_registry self h σ :
  existing_nodes (_add_child self h σ).2
  = match get_existing_node h σ with
    | Some _ => existing_nodes σ
    | None => <[h := length (heap σ)]> (existing_nodes σ)
    end.
Proof.
  unfold _add_child.
  destruct (get_existing_node h σ) as [child|]; simpl; by destruct (decide _).
Qed.

Lemma add_child_fst self h σ :
  (_add_child self h σ).1
  = match get_existing_node h σ with
    | Some child => child
    | None => length (heap σ)
    end.
Proof.
  unfold _add_child.
  destruct (get_existing_node h σ) as [child|]; simpl; by destruct (decide _).
Qed.

Lemma add_child_valid self h σ :
  registry_valid σ →
  registry_valid (_add_child self h σ).2
  ∧ (_add_child self h σ).1 < length (heap (_add_child self h σ).2)
  ∧ length (heap σ) ≤ length (heap (_add_child self h σ).2).
Proof.
  intros Hσ. unfold registry_valid, get_existing_node.
  rewrite add_child_length, add_child_registry, add_child_fst.
  unfold get_existing_node.
  destruct (existing_nodes σ !! h) as [child|] eqn:Hh.
  - split; [done|]. split; [by eapply Hσ|lia].
  - split; [|lia]. intros h' a. rewrite lookup_insert.
    case_decide; [intros [= <-]; lia|]. intros Ha%Hσ. lia.
Qed.

Lemma add_child_unfold self h σ :
  _add_child self h σ
  = let r := match get_existing_node h σ with
             | Some child => (child, σ)
             | None => NetworkTreeNode h σ
             end in
    if decide (parent_of r.2 self = Some r.1) then r
    else (r.1, append_child self r.1 (set_parent r.1 self r.2)).
Proof.
  unfold _add_child.
  by destruct (match get_existing_node h σ with
               | Some child => (child, σ)
               | None => NetworkTreeNode h σ
               end) as [child σ1].
Qed.

(** A parent pointer after [_add_child] designates the caller or is as it
    was. *)
Lemma add_child_parent_of self h σ a p :
  parent_of (_add_child self h σ).2 a = Some p →
  p = self ∨ parent_of σ a = Some p.
Proof.
  rewrite add_child_unfold. cbv zeta.
  assert (Hr : ∀ q, parent_of
    (match get_existing_node h σ with
     | Some child => (child, σ)
     | None => NetworkTreeNode h σ
     end).2 a = q → parent_of σ a = q).
  { intros q <-. destruct (get_existing_node h σ); [done|].
    symmetry. apply parent_of_NetworkTreeNode. }
  destruct (decide _); cbn [fst snd].
  - intros ?%Hr. by right.
  - rewrite parent_of_append_child, parent_of_set_parent.
    case_decide; [intros [= <-]; by left|]. intros ?%Hr. by right.
Qed.

Lemma add_child_hostname_of self h σ a :
  a < length (heap σ) →
  hostname_of (_add_child self h σ).2 a = hostname_of σ a.
Proof.
  intros Ha. rewrite add_child_unfold. cbv zeta.
  assert (Hr : hostname_of
    (match get_existing_node h σ with
     | Some child => (child, σ)
     | None => NetworkTreeNode h σ
     end).2 a = hostname_of σ a).
  { destruct (get_existing_node h σ); [done|].
    by apply hostname_of_NetworkTreeNode. }
  destruct (decide _); cbn [fst snd]; [done|].
  by rewrite hostname_of_append_child, hostname_of_set_parent.
Qed.

End Nodes.

(** ** The tree builder *)

Section Builder.

Variable data : adjacency.

Implicit Types (t : traversal) (self : addr) (recurse : addr → traversal → traversal * result ()).

Lemma find_neighbors_guard fuel self t :
  self ∈ t.1 → find_neighbors data (S fuel) self t = (t, Ok ()).
Proof. intros H. simpl. by rewrite decide_True. Qed.

Lemma find_neighbors_unfold fuel self t :
  self ∉ t.1 →
  find_neighbors data (S fuel) self t
  = match dependants data (hostname_of t.2 self) with
    | Ok dependant_neighbors =>
        attach_loop (find_neighbors data fuel) self dependant_neighbors t
    | KeyError key => (t, KeyError key)
    | OutOfFuel => (t, OutOfFuel)
    end.
Proof. intros H. simpl. by rewrite decide_False. Qed.

(** One iteration of the loop of lines 124 to 127. *)
Lemma attach_loop_cons recurse self neighbor rest t :
  attach_loop recurse self (neighbor :: rest) t
  = let r := recurse (_add_child self neighbor t.2).1
               ({[self]} ∪ t.1, (_add_child self neighbor t.2).2) in
    match r.2 with
    | Ok _ => attach_loop recurse self rest r.1
    | KeyError key => (r.1, KeyError key)
    | OutOfFuel => (r.1, OutOfFuel)
    end.
Proof.
  simpl. destruct (_add_child self neighbor t.2) as [child σ1]. simpl.
  by destruct (recurse child ({[self]} ∪ t.1, σ1)) as [t2 [[]| |]].
Qed.

(** The loop goes on from the state in which the iterations that returned
    left it. *)
Lemma attach_loop_app recurse self before rest t t1 :
  attach_loop recurse self before t = (t1, Ok ()) →
  attach_loop recurse self (before ++ rest) t = attach_loop recurse self rest t1.
Proof.
  revert t. induction before as [|m before IH]; intros t E.
  { simpl in E. by simplify_eq. }
  rewrite <- app_comm_cons. rewrite attach_loop_cons in E |- *. cbv zeta in *.
  destruct (recurse (_add_child self m t.2).1
              ({[self]} ∪ t.1, (_add_child self m t.2).2)) as [t2 [[]|k|]];
    cbn [fst snd] in *; [by apply IH|done|done].
Qed.

(** An exception of the call made for a neighbour is the outcome of the
    loop, whatever the position of the neighbour in the list. *)
Lemma attach_loop_raises recurse self before n after t t1 t2 key :
  attach_loop recurse self before t = (t1, Ok ()) →
  recurse (_add_child self n t1.2).1
          ({[self]} ∪ t1.1, (_add_child self n t1.2).2) = (t2, KeyError key) →
  attach_loop recurse self (before ++ n :: after) t = (t2, KeyError key).
Proof.
  intros Hbefore E. rewrite (attach_loop_app _ _ _ _ _ _ Hbefore).
  rewrite attach_loop_cons. cbv zeta. by rewrite E.
Qed.

(** *** More fuel does not change an outcome *)

Lemma attach_loop_mono f g self deps t :
  (∀ c t1, (f c t1).2 ≠ OutOfFuel → g c t1 = f c t1) →
  (attach_loop f self deps t).2 ≠ OutOfFuel →
  attach_loop g self deps t = attach_loop f self deps t.
Proof.
  intros Hfg. revert t. induction deps as [|n rest IH]; intros t; [done|].
  rewrite !attach_loop_cons. cbv zeta.
  set (c := (_add_child self n t.2).1).
  set (t1 := ({[self]} ∪ t.1, (_add_child self n t.2).2)).
  intros Hne. rewrite (Hfg c t1).
  - destruct (f c t1) as [t2 [[]| |]]; simpl in *; try done. by apply IH.
  - intros E. by rewrite E in Hne.
Qed.

Lemma find_neighbors_mono fuel fuel' self t :
  (find_neighbors data fuel self t).2 ≠ OutOfFuel → fuel ≤ fuel' →
  find_neighbors data fuel' self t = find_neighbors data fuel self t.
Proof.
  revert fuel' self t.
  induction fuel as [|fuel IH]; intros fuel' self t Hne Hle; [done|].
  destruct fuel' as [|fuel']; [lia|].
  destruct (decide (self ∈ t.1)) as [Hv|Hv].
  { by rewrite !find_neighbors_guard. }
  rewrite find_neighbors_unfold in Hne |- * by done.
  rewrite (find_neighbors_unfold fuel) by done.
  destruct (dependants data (hostname_of t.2 self)) as [deps| |]; try done.
  apply attach_loop_mono; [|done].
  intros c t1 Hc. apply IH; [done|lia].
Qed.

(** *** A [KeyError] names a key that the source does not hold *)

Lemma attach_loop_KeyError f self deps t key :
  (∀ c t1, (f c t1).2 = KeyError key → data !! key = None) →
  (attach_loop f self deps t).2 = KeyError key → data !! key = None.
Proof.
  intros Hf. revert t. induction deps as [|n rest IH]; intros t; [done|].
  rewrite attach_loop_cons. cbv zeta.
  set (c := (_add_child self n t.2).1).
  set (t1 := ({[self]} ∪ t.1, (_add_child self n t.2).2)).
  pose proof (Hf c t1) as Hc.
  destruct (f c t1) as [t2 [[]| |]]; simpl in *; [apply IH|exact Hc|done].
Qed.

Lemma find_neighbors_KeyError fuel self t key :
  (find_neighbors data fuel self t).2 = KeyError key → data !! key = None.
Proof.
  revert self t. induction fuel as [|fuel IH]; intros self t; [done|].
  destruct (decide (self ∈ t.1)) as [Hv|Hv].
  { by rewrite find_neighbors_guard. }
  rewrite find_neighbors_unfold by done.
  destruct (dependants_outcome data (hostname_of t.2 self))
    as [[deps ->]|(key' & -> & Hkey)].
  - apply attach_loop_KeyError. intros c t1. apply IH.
  - simpl. by intros [= <-].
Qed.

(** *** Every parent pointer designates a visited node *)

Lemma attach_loop_parents_visited f self deps t :
  (∀ c t1, parents_visited t1 → parents_visited (f c t1).1) →
  parents_visited t → parents_visited (attach_loop f self deps t).1.
Proof.
  intros Hf. revert t. induction deps as [|n rest IH]; intros t Ht; [done|].
  rewrite attach_loop_cons. cbv zeta.
  set (c := (_add_child self n t.2).1).
  set (t1 := ({[self]} ∪ t.1, (_add_child self n t.2).2)).
  assert (Ht1 : parents_visited t1).
  { intros a p Hp. cbn [fst snd] in *.
    apply add_child_parent_of in Hp as [->|Hp]; [set_solver|].
    apply Ht in Hp. set_solver. }
  pose proof (Hf c t1 Ht1) as Ht2.
  destruct (f c t1) as [t2 [[]| |]]; simpl in *; try done. by apply IH.
Qed.

Lemma find_neighbors_parents_visited fuel self t :
  parents_visited t → parents_visited (find_neighbors data fuel self t).1.
Proof.
  revert self t. induction fuel as [|fuel IH]; intros self t Ht; [done|].
  destruct (decide (self ∈ t.1)) as [Hv|Hv].
  { by rewrite find_neighbors_guard. }
  rewrite find_neighbors_unfold by done.
  destruct (dependants data (hostname_of t.2 self)) as [deps| |]; try done.
  apply attach_loop_parents_visited; [|done]. intros c t1. apply IH.
Qed.

(** *** The builder does what the variant without descent does *)

Lemma attach_loop_no_descent_eq fuel self deps t :
  (∀ c t1, parents_visited t1 →
           (find_neighbors data fuel c t1).2 ≠ OutOfFuel →
           find_neighbors_no_descent data fuel c t1 = find_neighbors data fuel c t1) →
  parents_visited t →
  (attach_loop (find_neighbors data fuel) self deps t).2 ≠ OutOfFuel →
  attach_loop_no_descent (find_neighbors_no_descent data fuel) self deps t
  = attach_loop (find_neighbors data fuel) self deps t.
Proof.
  intros Hrec. revert t. induction deps as [|n rest IH]; intros t Ht; [done|].
  rewrite attach_loop_cons. cbv zeta. cbn [attach_loop_no_descent].
  assert (Ht1 : parents_visited ({[self]} ∪ t.1, (_add_child self n t.2).2)).
  { intros a p Hp. cbn [fst snd] in *.
    apply add_child_parent_of in Hp as [->|Hp]; [set_solver|].
    apply Ht in Hp. set_solver. }
  destruct (get_existing_node n t.2) as [candidate|] eqn:Hn.
  - destruct (bool_decide_reflect (parent_of t.2 self = Some candidate)) as [Hp|Hp].
    + (* the candidate is the parent *)
      rewrite (add_child_parent _ _ _ _ Hn Hp) in Ht1 |- *. cbn [fst snd] in *.
      assert (Hc : candidate ∈ {[self]} ∪ t.1) by (apply Ht in Hp; set_solver).
      destruct fuel as [|fuel]; [done|].
      rewrite find_neighbors_guard by done. cbn [fst snd].
      intros Hne. by apply IH.
    + destruct (_add_child self n t.2) as [c σ1]. cbn [fst snd] in *.
      intros Hne. rewrite Hrec; [|done|].
      * pose proof (find_neighbors_parents_visited fuel c _ Ht1) as Ht2.
        destruct (find_neighbors data fuel c ({[self]} ∪ t.1, σ1))
          as [t2 [[]| |]]; cbn [fst snd] in *; try done.
        by apply IH.
      * intros E. by rewrite E in Hne.
  - destruct (_add_child self n t.2) as [c σ1]. cbn [fst snd] in *.
    intros Hne. rewrite Hrec; [|done|].
    * pose proof (find_neighbors_parents_visited fuel c _ Ht1) as Ht2.
      destruct (find_neighbors data fuel c ({[self]} ∪ t.1, σ1))
        as [t2 [[]| |]]; cbn [fst snd] in *; try done.
      by apply IH.
    * intros E. by rewrite E in Hne.
Qed.

Lemma find_neighbors_no_descent_eq fuel self t :
  parents_visited t →
  (find_neighbors data fuel self t).2 ≠ OutOfFuel →
  find_neighbors_no_descent data fuel self t = find_neighbors data fuel self t.
Proof.
  revert self t. induction fuel as [|fuel IH]; intros self t Ht; [done|].
  destruct (decide (self ∈ t.1)) as [Hv|Hv].
  { rewrite find_neighbors_guard by done. simpl. by rewrite decide_True. }
  rewrite find_neighbors_unfold by done.
  cbn [find_neighbors_no_descent]. rewrite decide_False by done.
  destruct (dependants data (hostname_of t.2 self)) as [deps| |]; try done.
  apply attach_loop_no_descent_eq; [|done]. intros c t1. apply IH.
Qed.

End Builder.

(** ** Termination of the tree builder *)

Section Termination.

Variable data : adjacency.

Implicit Types (t : traversal) (self : addr).

Lemma elem_of_mentioned h cdp n :
  data !! h = Some cdp → n ∈ cdp → n ∈ mentioned data.
Proof.
  intros Hh Hn. unfold mentioned. apply elem_of_union_list.
  exists (list_to_set cdp). split; [|by apply elem_of_list_to_set].
  apply list_elem_of_fmap. exists cdp. split; [done|].
  apply list_elem_of_fmap. exists (h, cdp). split; [done|].
  by apply elem_of_map_to_list.
Qed.

Lemma elem_of_comprehension cond lst n :
  n ∈ comprehension cond lst → n ∈ lst.
Proof.
  induction lst as [|x lst IH]; simpl; [done|].
  destruct (cond x); rewrite ?elem_of_cons; intuition.
Qed.

Lemma redundancy_loop_elem_of mpls acc l n :
  redundancy_loop data mpls acc = Ok l → n ∈ l → n ∈ acc ∨ n ∈ mpls.
Proof.
  revert acc. induction mpls as [|m rest IH]; intros acc; simpl.
  - intros [= <-]. by left.
  - destruct (subscript data m) as [cdp| |]; simpl; try done.
    destruct (Nat.ltb _ 2); intros E Hn; destruct (IH _ E Hn) as [H|H].
    + apply elem_of_app in H as [H|H%list_elem_of_singleton]; [by left|].
      right. subst. apply elem_of_cons. by left.
    + right. apply elem_of_cons. by right.
    + by left.
    + right. apply elem_of_cons. by right.
Qed.

(** The dependants of a hostname are among its neighbours. *)
Lemma dependants_mentioned h deps n :
  dependants data h = Ok deps → n ∈ deps → n ∈ mentioned data.
Proof.
  unfold dependants, subscript.
  destruct (data !! h) as [cdp|] eqn:Hh; simpl; [|done].
  intros E Hn. apply (elem_of_mentioned h cdp); [done|].
  destruct (search REGEXP_PE_PATTERN h).
  - destruct (redundancy_loop_elem_of _ _ _ _ E Hn) as [H|H];
      by apply elem_of_comprehension in H.
  - injection E as <-. by apply elem_of_comprehension in Hn.
Qed.

Lemma unexplored_mono_visited visited visited' σ :
  visited ⊆ visited' →
  unexplored data (visited', σ) ≤ unexplored data (visited, σ).
Proof.
  intros Hsub. unfold unexplored. cbn [fst snd].
  apply Nat.add_le_mono_r, subseteq_size. set_solver.
Qed.

Lemma unexplored_visit self visited σ :
  self < length (heap σ) → self ∉ visited →
  unexplored data ({[self]} ∪ visited, σ) < unexplored data (visited, σ).
Proof.
  intros Hlt Hv. unfold unexplored. cbn [fst snd].
  apply Nat.add_lt_mono_r, subset_size.
  assert (self ∈ (set_seq 0 (length (heap σ)) : gset nat))
    by (apply elem_of_set_seq; lia).
  set_solver.
Qed.

Lemma unexplored_add_child self n visited σ :
  n ∈ mentioned data →
  unexplored data (visited, (_add_child self n σ).2)
  ≤ unexplored data (visited, σ).
Proof.
  intros Hn. unfold unexplored. cbn [fst snd].
  rewrite add_child_length, add_child_registry. unfold get_existing_node.
  destruct (existing_nodes σ !! n) as [child|] eqn:Hlook; [done|].
  rewrite set_seq_S_end_union_L, dom_insert_L. simpl.
  assert (H1 : size (({[length (heap σ)]} ∪ set_seq 0 (length (heap σ))) ∖ visited : gset nat)
               ≤ 1 + size (set_seq 0 (length (heap σ)) ∖ visited : gset nat)).
  { etrans; [apply (subseteq_size _
      ({[length (heap σ)]} ∪ set_seq 0 (length (heap σ)) ∖ visited))|].
    { set_solver. }
    rewrite size_union_alt, size_singleton.
    apply Nat.add_le_mono_l, subseteq_size. set_solver. }
  assert (H2 : size (mentioned data ∖ ({[n]} ∪ dom (existing_nodes σ)))
               < size (mentioned data ∖ dom (existing_nodes σ))).
  { apply subset_size.
    assert (n ∉ dom (existing_nodes σ)) by (by apply not_elem_of_dom).
    set_solver. }
  lia.
Qed.

Lemma extends_refl t : registry_valid t.2 → extends data t t.
Proof. intros H. repeat split; [done|lia|done|lia]. Qed.

Lemma extends_trans t1 t2 t3 :
  extends data t1 t2 → extends data t2 t3 → extends data t1 t3.
Proof.
  intros (_ & H2 & H3 & H4) (G1 & G2 & G3 & G4).
  repeat split; [done|lia|set_solver|lia].
Qed.

Lemma attach_loop_terminates fuel f self deps t :
  (∀ c t1, registry_valid t1.2 → c < length (heap t1.2) →
     extends data t1 (f c t1).1
     ∧ (unexplored data t1 < fuel → (f c t1).2 ≠ OutOfFuel)) →
  registry_valid t.2 → self < length (heap t.2) →
  (∀ n, n ∈ deps → n ∈ mentioned data) →
  extends data t (attach_loop f self deps t).1
  ∧ (unexplored data ({[self]} ∪ t.1, t.2) < fuel →
     (attach_loop f self deps t).2 ≠ OutOfFuel).
Proof.
  intros Hf. revert t.
  induction deps as [|n rest IH]; intros t Hreg Hself Hdeps.
  { split; [by apply extends_refl|done]. }
  rewrite attach_loop_cons. cbv zeta.
  destruct (add_child_valid self n t.2 Hreg) as (Hreg1 & Hc & Hlen).
  assert (Hn : n ∈ mentioned data) by (apply Hdeps, elem_of_cons; by left).
  pose proof (unexplored_add_child self n ({[self]} ∪ t.1) t.2 Hn) as HU.
  set (c := (_add_child self n t.2).1) in *.
  set (σ1 := (_add_child self n t.2).2) in *.
  assert (Hext1 : extends data t ({[self]} ∪ t.1, σ1)).
  { repeat split; cbn [fst snd]; [done|done|set_solver|].
    etrans; [exact HU|].
    destruct t as [v σ]. apply unexplored_mono_visited. set_solver. }
  destruct (Hf c ({[self]} ∪ t.1, σ1) Hreg1 Hc) as [Hext2 Hfuel].
  destruct (f c ({[self]} ∪ t.1, σ1)) as [t2 r] eqn:Ef. cbn [fst snd] in *.
  pose proof (extends_trans _ _ _ Hext1 Hext2) as Hext.
  destruct r as [[]| |]; [| |].
  - destruct Hext2 as (Hreg2 & Hlen2 & Hsub2 & HU2). cbn [fst snd] in *.
    destruct (IH t2) as [Hext3 Hfuel3]; [done|lia| |].
    { intros m Hm. apply Hdeps, elem_of_cons. by right. }
    split; [by eapply extends_trans|].
    intros Hlt. apply Hfuel3.
    eapply Nat.le_lt_trans; [|exact Hlt].
    etrans; [|exact HU]. etrans; [|exact HU2].
    destruct t2 as [v2 σ2]. apply unexplored_mono_visited. set_solver.
  - split; [done|done].
  - split; [done|]. intros Hlt. exfalso. apply Hfuel; [|done].
    eapply Nat.le_lt_trans; [exact HU|exact Hlt].
Qed.

(** The builder returns, or raises, as soon as the fuel exceeds the work
    that is left; it only adds objects and visits. *)
Lemma find_neighbors_terminates fuel self t :
  registry_valid t.2 → self < length (heap t.2) →
  extends data t (find_neighbors data fuel self t).1
  ∧ (unexplored data t < fuel → (find_neighbors data fuel self t).2 ≠ OutOfFuel).
Proof.
  revert self t. induction fuel as [|fuel IH]; intros self t Hreg Hself.
  { split; [by apply extends_refl|lia]. }
  destruct (decide (self ∈ t.1)) as [Hv|Hv].
  { rewrite find_neighbors_guard by done. split; [by apply extends_refl|done]. }
  rewrite find_neighbors_unfold by done.
  destruct (dependants data (hostname_of t.2 self)) as [deps| |] eqn:Ed.
  - destruct (attach_loop_terminates fuel (find_neighbors data fuel) self deps t)
      as [Hext Hfuel]; try done.
    { intros n Hn. by eapply dependants_mentioned. }
    split; [done|]. intros Hlt. apply Hfuel.
    destruct t as [v σ]. cbn [fst snd] in *.
    pose proof (unexplored_visit self v σ Hself Hv). lia.
  - split; [by apply extends_refl|done].
  - destruct (dependants_outcome data (hostname_of t.2 self))
      as [[l E]|(key & E & _)]; rewrite E in Ed; done.
Qed.

Lemma build_terminates fuel root σ :
  registry_valid σ →
  unexplored data (∅, (NetworkTreeNode root σ).2) < fuel →
  (build data fuel root σ).2 ≠ OutOfFuel.
Proof.
  intros Hreg Hlt. unfold build.
  destruct (NetworkTreeNode root σ) as [node σ1] eqn:E.
  apply find_neighbors_terminates; [| |done].
  - injection E as <- <-. intros h a. unfold get_existing_node. simpl.
    rewrite lookup_insert, length_app. simpl.
    case_decide; [intros [= <-]; lia|]. intros Ha%Hreg. lia.
  - injection E as <- <-. simpl. rewrite length_app. simpl. lia.
Qed.

Lemma build_fresh_terminates fuel root :
  S (size (mentioned data)) < fuel →
  (build data fuel root fresh).2 ≠ OutOfFuel.
Proof.
  intros Hlt. apply build_terminates; [done|].
  eapply Nat.le_lt_trans; [|exact Hlt].
  unfold unexplored. cbn [fst snd NetworkTreeNode heap existing_nodes fresh].
  simpl length.
  assert (H1 : size (set_seq 0 1 ∖ ∅ : gset nat) ≤ 1).
  { etrans; [apply subseteq_size|]; [apply subseteq_difference_l; reflexivity|].
    by rewrite size_set_seq. }
  assert (H2 : size (mentioned data ∖ dom (<[root := 0]> (∅ : gmap string nat)))
               ≤ size (mentioned data)).
  { apply subseteq_size. set_solver. }
  lia.
Qed.

End Termination.

(** ** What attachment keeps: a node is listed by its parent *)

Section ParentListed.

Variable data : adjacency.

Implicit Types (t : traversal) (self : addr).

(** [_add_child] sets the parent pointer and appends to the list of
    children together; what other lists hold stays there. *)
Lemma add_child_parent_listed self h σ :
  self < length (heap σ) → parent_listed σ →
  parent_listed (_add_child self h σ).2.
Proof.
  intros Hself Hσ. rewrite add_child_unfold. cbv zeta.
  set (r := match get_existing_node h σ with
            | Some child => (child, σ)
            | None => NetworkTreeNode h σ
            end).
  assert (Hp : ∀ a, parent_of r.2 a = parent_of σ a).
  { intros a. unfold r. destruct (get_existing_node h σ); [done|].
    apply parent_of_NetworkTreeNode. }
  assert (Hc : ∀ a, children_of r.2 a = children_of σ a).
  { intros a. unfold r. destruct (get_existing_node h σ); [done|].
    apply children_of_NetworkTreeNode. }
  assert (Hlen : self < length (heap r.2)).
  { unfold r. destruct (get_existing_node h σ); [done|].
    simpl. rewrite length_app. lia. }
  assert (Hr : parent_listed r.2).
  { intros a p. rewrite Hp, Hc. apply Hσ. }
  destruct (decide _); cbn [fst snd]; [done|].
  intros a p. rewrite parent_of_append_child, parent_of_set_parent.
  rewrite children_of_append_child, !children_of_set_parent.
  assert (Hlen' : self < length (heap (set_parent r.1 self r.2))).
  { unfold set_parent. simpl. by rewrite length_alter. }
  case_decide as Ha.
  - intros [= <-]. destruct Ha as [<- _].
    rewrite decide_True by done. apply elem_of_app. right.
    apply list_elem_of_singleton. done.
  - intros Hpa%Hr. case_decide as Hs; [|done].
    destruct Hs as [<- _]. apply elem_of_app. by left.
Qed.

Lemma attach_loop_parent_listed fuel self deps t :
  (∀ c t1, registry_valid t1.2 → c < length (heap t1.2) → parent_listed t1.2 →
           parent_listed (find_neighbors data fuel c t1).1.2) →
  registry_valid t.2 → self < length (heap t.2) →
  parent_listed t.2 →
  parent_listed (attach_loop (find_neighbors data fuel) self deps t).1.2.
Proof.
  intros Hrec. revert t.
  induction deps as [|n rest IH]; intros t Hreg Hself Ht; [done|].
  rewrite attach_loop_cons. cbv zeta.
  destruct (add_child_valid self n t.2 Hreg) as (Hreg1 & Hc & Hlen).
  pose proof (add_child_parent_listed self n t.2 Hself Ht) as Ht1.
  set (c := (_add_child self n t.2).1) in *.
  set (t1 := ({[self]} ∪ t.1, (_add_child self n t.2).2)) in *.
  pose proof (Hrec c t1 Hreg1 Hc Ht1) as Ht2.
  destruct (find_neighbors_terminates data fuel c t1 Hreg1 Hc)
    as [(Hreg2 & Hlen2 & _ & _) _].
  destruct (find_neighbors data fuel c t1) as [t2 [[]| |]];
    cbn [fst snd] in *; try done.
  apply IH; [done| |done]. unfold t1 in Hlen2. cbn [snd] in Hlen2. lia.
Qed.

Lemma find_neighbors_parent_listed fuel self t :
  registry_valid t.2 → self < length (heap t.2) → parent_listed t.2 →
  parent_listed (find_neighbors data fuel self t).1.2.
Proof.
  revert self t. induction fuel as [|fuel IH]; intros self t Hreg Hself Ht; [done|].
  destruct (decide (self ∈ t.1)) as [Hv|Hv].
  { by rewrite find_neighbors_guard. }
  rewrite find_neighbors_unfold by done.
  destruct (dependants data (hostname_of t.2 self)) as [deps| |]; try done.
  apply attach_loop_parent_listed; [|done..]. intros c t1. apply IH.
Qed.

(** After any run of the builder on a fresh registry, whatever its
    outcome, every node whose parent pointer designates [p] is in the list
    of children of [p].  The converse fails on [ring_data]. *)
Lemma build_parent_listed fuel root :
  parent_listed (build data fuel root fresh).1.2.
Proof.
  unfold build. simpl.
  apply find_neighbors_parent_listed.
  - intros h a. unfold get_existing_node. simpl. rewrite lookup_insert.
    case_decide; [intros [= <-]; lia|done].
  - simpl. lia.
  - intros a p. unfold parent_of. simpl. by destruct a as [|[|a]].
Qed.

End ParentListed.

(** ** The builder on the examples *)

Lemma build_mono data fuel fuel' root σ :
  (build data fuel root σ).2 ≠ OutOfFuel → fuel ≤ fuel' →
  build data fuel' root σ = build data fuel root σ.
Proof.
  unfold build. destruct (NetworkTreeNode root σ) as [node σ1].
  apply find_neighbors_mono.
Qed.

Lemma build_sweden fuel :
  5 ≤ fuel →
  build STATIC_DATA fuel "sweden-pe1.example.com" fresh
  = build STATIC_DATA 5 "sweden-pe1.example.com" fresh.
Proof. intros H. apply build_mono; [by vm_compute|done]. Qed.

(** [main] for its target [sweden-a1]: the root is [sweden-pe1] and the
    nodes are [sweden_nodes]. *)
Example main_sweden_a1 :
  find_root STATIC_DATA 5 "sweden-a1.example.com" ∅
  = Ok (Some "sweden-pe1.example.com")
  ∧ (main STATIC_DATA 5 "sweden-a1.example.com").2 = Ok ()
  ∧ heap (main STATIC_DATA 5 "sweden-a1.example.com").1 = sweden_nodes.
Proof. by vm_compute. Qed.

(** C2, as amended.  On the example of the program the builder, from the
    root [sweden-pe1], returns with any fuel from 5 on and leaves the nodes
    [sweden_nodes]: the children of the root are its three access
    neighbours and then [denmark-pe2], the only backbone neighbour that has
    fewer than two backbone neighbours (it has one).  [norway-pe1] has
    three and [finland-pe1] has two: no node is made for them, and they are
    neither child nor parent of any node. *)
Theorem build_sweden_attaches_denmark_pe2 (fuel : nat) :
  5 ≤ fuel →
  let r := build STATIC_DATA fuel "sweden-pe1.example.com" fresh in
  r.2 = Ok ()
  ∧ heap r.1.2 = sweden_nodes
  ∧ children_names r.1.2 "sweden-pe1.example.com"
    = [ "sweden-a1.example.com"; "sweden-a2.example.com";
        "sweden-a4.example.com"; "denmark-pe2.example.com" ]
  ∧ parent_name r.1.2 "denmark-pe2.example.com" = Some "sweden-pe1.example.com"
  ∧ backbone_neighbors STATIC_DATA "denmark-pe2.example.com"
    = [ "sweden-pe1.example.com" ]
  ∧ length (backbone_neighbors STATIC_DATA "sweden-pe1.example.com") = 3
  ∧ length (backbone_neighbors STATIC_DATA "norway-pe1.example.com") = 3
  ∧ length (backbone_neighbors STATIC_DATA "finland-pe1.example.com") = 2
  ∧ get_existing_node "norway-pe1.example.com" r.1.2 = None
  ∧ get_existing_node "finland-pe1.example.com" r.1.2 = None.
Proof.
  intros H. cbv zeta. rewrite (build_sweden fuel H).
  repeat split; by vm_compute.
Qed.

Lemma build_sweden_attaches_denmark_pe2_witness :
  heap (build STATIC_DATA 6 "sweden-pe1.example.com" fresh).1.2 = sweden_nodes.
Proof.
  refine (proj1 (proj2 (build_sweden_attaches_denmark_pe2 6 _))). lia.
Defined.

(** C2, as the specification states it, fails: whatever the fuel, the
    builder does not make [norway-pe1] a child of the root, and
    [norway-pe1] does not have fewer than two backbone neighbours. *)
Lemma norway_pe1_not_attached :
  ¬ (∃ fuel,
       let r := build STATIC_DATA fuel "sweden-pe1.example.com" fresh in
       r.2 = Ok ()
       ∧ "norway-pe1.example.com" ∈ children_names r.1.2 "sweden-pe1.example.com")
  ∧ ¬ length (backbone_neighbors STATIC_DATA "norway-pe1.example.com") < 2.
Proof.
  split.
  - intros (fuel & Hok & Hin). cbv zeta in *.
    destruct (decide (5 ≤ fuel)) as [Hfuel|Hfuel].
    + rewrite (build_sweden fuel Hfuel) in Hin.
      vm_compute children_names in Hin.
      repeat (apply elem_of_cons in Hin as [Hin|Hin]; [discriminate|]).
      by apply elem_of_nil in Hin.
    + do 5 (destruct fuel as [|fuel]; [by vm_compute in Hok|]). lia.
  - vm_compute. lia.
Qed.

(** C4, on [ring_data]: a backbone device with a ring of three access
    devices behind it.  The builder returns and leaves the nodes
    [ring_nodes].  The parent pointers of the three access nodes form a
    cycle, [lab-a1] to [lab-a3] to [lab-a2] to [lab-a1]: from none of them do
    parent pointers lead to the root, and [_get_level] does not return on
    them.  [lab-a1] is in the list of children of the root and of [lab-a3],
    and its parent pointer designates [lab-a3]. *)
Theorem build_ring_parent_cycle :
  ∀ fuel,
    let r := build ring_data (5 + fuel) "lab-pe1.example.com" fresh in
    r.2 = Ok ()
    ∧ heap r.1.2 = ring_nodes
    ∧ get_existing_node "lab-pe1.example.com" r.1.2 = Some 0
    ∧ 1 ∈ children_of r.1.2 0 ∧ 1 ∈ children_of r.1.2 3
    ∧ parent_of r.1.2 1 = Some 3
    ∧ ancestor r.1.2 3 1 = Some 1
    ∧ ¬ children_agree r.1.2
    ∧ ¬ parent_paths_to_root r.1.2 0
    ∧ ∀ fuel', _get_level r.1.2 fuel' 1 = OutOfFuel.
Proof.
  intros fuel. cbv zeta.
  rewrite (build_mono ring_data 5 (5 + fuel)); [|by vm_compute|lia].
  set (σ := (build ring_data 5 "lab-pe1.example.com" fresh).1.2).
  assert (Hheap : heap σ = ring_nodes) by by vm_compute.
  assert (Hp : ∀ a, parent_of σ a = parent (ring_nodes !!! a)).
  { intros a. unfold parent_of. by rewrite Hheap. }
  assert (Hc : ∀ a, children_of σ a = children (ring_nodes !!! a)).
  { intros a. unfold children_of. by rewrite Hheap. }
  assert (Hcycle : ∀ n a, a = 1 ∨ a = 2 ∨ a = 3 → ancestor σ n a ≠ Some 0).
  { induction n as [|n IH]; intros a Ha; simpl.
    - intros [= ->]. lia.
    - rewrite Hp. destruct Ha as [->|[->| ->]]; simpl; apply IH; auto. }
  assert (Hloop : ∀ fuel' a level, a = 1 ∨ a = 2 ∨ a = 3 →
                    get_level_loop σ fuel' (Some a) level = OutOfFuel).
  { induction fuel' as [|fuel' IH]; intros a level Ha; simpl; [done|].
    rewrite Hp. destruct Ha as [->|[->| ->]]; simpl; apply IH; auto. }
  split; [by vm_compute|]. split; [done|]. split; [by vm_compute|].
  split; [rewrite Hc; simpl; apply elem_of_cons; by left|].
  split; [rewrite Hc; simpl; apply elem_of_cons; by left|].
  split; [by rewrite Hp|]. split; [simpl; by rewrite !Hp|].
  split; [|split].
  - intros Hagree. specialize (Hagree 1 0). rewrite Hheap, Hc, Hp in Hagree.
    simpl in Hagree. destruct Hagree as [Hagree _]; [lia|lia|].
    discriminate Hagree. apply elem_of_cons. by left.
  - intros [_ Hpaths]. destruct (Hpaths 1) as [n Hn].
    + eapply descendant_child; [apply descendant_root|].
      rewrite Hc. simpl. apply elem_of_cons. by left.
    + by apply (Hcycle n 1); [left|].
  - intros fuel'. unfold _get_level. rewrite Hp. simpl. apply Hloop. auto.
Qed.

(** ** A candidate that is the parent of the node *)

(** C7, as amended.  Let the hostname [h] be registered for the node
    [child], and let [child] be the parent of [self].  Then
    [self._add_child(h)] returns [child] and changes nothing: no node is
    made, no parent pointer and no list of children changes.  The caller
    still marks [self] as visited and calls [find_neighbors] on [child];
    when [child] is in the visited set that call returns at once and the
    iteration changes no node.  Where every parent pointer designates a
    visited node, which holds when a traversal starts on a fresh registry
    and which [find_neighbors] keeps, [child] is in the visited set, and the
    builder does exactly what the variant that never descends into a parent
    does. *)
Theorem add_child_parent_noop (data : adjacency) (fuel : nat) (self : addr)
    (h : string) (child : addr) (t : traversal) :
  get_existing_node h t.2 = Some child →
  parent_of t.2 self = Some child →
  _add_child self h t.2 = (child, t.2)
  ∧ (child ∈ {[self]} ∪ t.1 →
     ∀ rest,
       attach_loop (find_neighbors data (S fuel)) self (h :: rest) t
       = attach_loop (find_neighbors data (S fuel)) self rest ({[self]} ∪ t.1, t.2))
  ∧ (parents_visited t →
     child ∈ t.1
     ∧ parents_visited (find_neighbors data fuel self t).1
     ∧ ((find_neighbors data fuel self t).2 ≠ OutOfFuel →
        find_neighbors_no_descent data fuel self t = find_neighbors data fuel self t))
  ∧ (∀ root,
       parents_visited (∅, (NetworkTreeNode root fresh).2)
       ∧ parents_visited (build data fuel root fresh).1).
Proof.
  intros Hh Hp. split; [by apply add_child_parent|]. split; [|split].
  - intros Hc rest. rewrite attach_loop_cons. cbv zeta.
    rewrite (add_child_parent _ _ _ _ Hh Hp). cbn [fst snd].
    by rewrite find_neighbors_guard.
  - intros Ht. split; [by apply (Ht self)|].
    split; [by apply find_neighbors_parents_visited|].
    by apply find_neighbors_no_descent_eq.
  - intros root.
    assert (H0 : parents_visited (∅, (NetworkTreeNode root fresh).2)).
    { intros a p. cbn [fst snd]. rewrite parent_of_NetworkTreeNode.
      unfold parent_of. by destruct a. }
    split; [done|]. unfold build.
    destruct (NetworkTreeNode root fresh) as [node σ1].
    by apply find_neighbors_parents_visited.
Qed.

(** On the example of the program: [sweden-a3], whose parent is
    [sweden-a1], names [sweden-a1] as a candidate. *)
Lemma add_child_parent_noop_witness :
  let t := (build STATIC_DATA 5 "sweden-pe1.example.com" fresh).1 in
  _add_child 2 "sweden-a1.example.com" t.2 = (1, t.2).
Proof.
  refine (proj1 (add_child_parent_noop STATIC_DATA 5 2 "sweden-a1.example.com" 1
    (build STATIC_DATA 5 "sweden-pe1.example.com" fresh).1 _ _)).
  - vm_compute. reflexivity.
  - vm_compute. reflexivity.
Defined.

(** C7, as the specification states it, fails.  On the nodes that the
    builder has left for the example of the program, a new traversal from
    [sweden-a3] names its parent [sweden-a1] as a candidate; [sweden-a1] is
    not in the new visited set, the caller descends into it, and
    [sweden-a1] attaches its children again: its list of children goes from
    two entries to four. *)
Lemma descent_into_parent_counterexample :
  ¬ (∀ (data : adjacency) (fuel : nat) (self : addr) (h : string)
       (child : addr) (t : traversal),
       get_existing_node h t.2 = Some child →
       parent_of t.2 self = Some child →
       (attach_loop (find_neighbors data fuel) self [h] t).2 = Ok () →
       (attach_loop (find_neighbors data fuel) self [h] t).1.2 = t.2).
Proof.
  intros H.
  specialize (H STATIC_DATA 5 2 "sweden-a1.example.com" 1
    (∅, (build STATIC_DATA 5 "sweden-pe1.example.com" fresh).1.2)).
  cbn [fst snd] in H.
  assert (H1 : get_existing_node "sweden-a1.example.com"
                 (build STATIC_DATA 5 "sweden-pe1.example.com" fresh).1.2 = Some 1)
    by by vm_compute.
  assert (H2 : parent_of (build STATIC_DATA 5 "sweden-pe1.example.com" fresh).1.2 2
               = Some 1) by by vm_compute.
  specialize (H H1 H2 ltac:(by vm_compute)).
  apply (f_equal (λ σ, length (children_of σ 1))) in H.
  vm_compute in H. discriminate H.
Qed.

(** ** Errors *)

(** C9.  The only exception of [find_root] and of [find_neighbors] is the
    [KeyError] of a subscript of the source with a key that it does not
    hold.  (1) [find_root] raises it for its argument, (2) and an exception
    of the call that it makes is its own outcome.  (3) [find_neighbors]
    raises it for the hostname of the node and (4) for the first backbone
    neighbour that is not a key, when the node is backbone; the nodes are
    left as they were.  (5) An exception of a call that the loop makes ends
    the loop and is its outcome; the neighbours that follow are not
    attached.  (6) Every [KeyError] of the two procedures names a key that
    the source does not hold.  (7) With enough fuel the outcome of
    [find_root] is a value or such a [KeyError], (8) and so is the outcome
    of the builder on a fresh registry.

    The exception travels up through every level of [find_neighbors]:
    (9) on a node that was not visited and whose list of dependants was
    computed, the outcome of [find_neighbors] is the outcome of its loop,
    nothing is caught; (10) the loop returns the [KeyError] of the call
    that it makes for a neighbour at any position of the list, once the
    calls for the neighbours before it have returned; (11) hence
    [find_neighbors] returns the [KeyError] of a call nested in it, with the
    nodes as that call left them; (12) that outcome does not depend on the
    recursion depth allowed beyond the one that produced it; (13) the
    builder returns the [KeyError] of [find_neighbors] on the root node and
    [main] returns that of the builder and that of [find_root]; (14) from
    any registry whose entries designate existing nodes, with enough depth,
    [find_neighbors] returns or raises a [KeyError] for a key that the
    source does not hold. *)
Theorem lookup_error_propagates :
  (∀ data fuel h visited,
     h ∉ visited → is_backbone h = false → data !! h = None →
     find_root data (S fuel) h visited = KeyError h)
  ∧ (∀ data fuel h visited h' visited' key,
       find_root_calls data (h, visited) (h', visited') →
       find_root data fuel h' visited' = KeyError key →
       find_root data (S fuel) h visited = KeyError key)
  ∧ (∀ data fuel self (t : traversal),
       self ∉ t.1 → data !! hostname_of t.2 self = None →
       find_neighbors data (S fuel) self t = (t, KeyError (hostname_of t.2 self)))
  ∧ (∀ data fuel self (t : traversal) cdp before n after,
       self ∉ t.1 → is_backbone (hostname_of t.2 self) = true →
       data !! hostname_of t.2 self = Some cdp →
       (split_list_by_regex cdp REGEXP_PE_PATTERN).1 = before ++ n :: after →
       Forall (λ m, is_Some (data !! m)) before → data !! n = None →
       find_neighbors data (S fuel) self t = (t, KeyError n))
  ∧ (∀ recurse self neighbor rest (t t2 : traversal) key,
       recurse (_add_child self neighbor t.2).1
               ({[self]} ∪ t.1, (_add_child self neighbor t.2).2)
       = (t2, KeyError key) →
       attach_loop recurse self (neighbor :: rest) t = (t2, KeyError key))
  ∧ (∀ data fuel h visited self (t : traversal) key,
       (find_root data fuel h visited = KeyError key → data !! key = None)
       ∧ ((find_neighbors data fuel self t).2 = KeyError key → data !! key = None))
  ∧ (∀ data fuel h,
       size data < fuel →
       (∃ r, find_root data fuel h ∅ = Ok r)
       ∨ (∃ key, find_root data fuel h ∅ = KeyError key ∧ data !! key = None))
  ∧ (∀ data fuel root,
       S (size (mentioned data)) < fuel →
       (build data fuel root fresh).2 = Ok ()
       ∨ (∃ key, (build data fuel root fresh).2 = KeyError key ∧ data !! key = None))
  ∧ (∀ data fuel self (t : traversal) dependant_neighbors,
       self ∉ t.1 →
       dependants data (hostname_of t.2 self) = Ok dependant_neighbors →
       find_neighbors data (S fuel) self t
       = attach_loop (find_neighbors data fuel) self dependant_neighbors t)
  ∧ (∀ recurse self before n after (t t1 t2 : traversal) key,
       attach_loop recurse self before t = (t1, Ok ()) →
       recurse (_add_child self n t1.2).1
               ({[self]} ∪ t1.1, (_add_child self n t1.2).2)
       = (t2, KeyError key) →
       attach_loop recurse self (before ++ n :: after) t = (t2, KeyError key))
  ∧ (∀ data fuel self (t t1 t2 : traversal) before n after key,
       self ∉ t.1 →
       dependants data (hostname_of t.2 self) = Ok (before ++ n :: after) →
       attach_loop (find_neighbors data fuel) self before t = (t1, Ok ()) →
       find_neighbors data fuel (_add_child self n t1.2).1
                      ({[self]} ∪ t1.1, (_add_child self n t1.2).2)
       = (t2, KeyError key) →
       find_neighbors data (S fuel) self t = (t2, KeyError key))
  ∧ (∀ data fuel fuel' self (t t2 : traversal) key,
       find_neighbors data fuel self t = (t2, KeyError key) → fuel ≤ fuel' →
       find_neighbors data fuel' self t = (t2, KeyError key))
  ∧ (∀ data fuel target root σ (t2 : traversal) key,
       (find_neighbors data fuel (NetworkTreeNode root σ).1
                       (∅, (NetworkTreeNode root σ).2) = (t2, KeyError key) →
        build data fuel root σ = (t2, KeyError key))
       ∧ (find_root data fuel target ∅ = Ok (Some root) →
          build data fuel root fresh = (t2, KeyError key) →
          main data fuel target = (t2.2, KeyError key))
       ∧ (find_root data fuel target ∅ = KeyError key →
          main data fuel target = (fresh, KeyError key)))
  ∧ (∀ data fuel self (t : traversal),
       registry_valid t.2 → self < length (heap t.2) →
       unexplored data t < fuel →
       (find_neighbors data fuel self t).2 = Ok ()
       ∨ (∃ key, (find_neighbors data fuel self t).2 = KeyError key
                 ∧ data !! key = None)).
Proof.
  split; [apply find_root_absent|].
  split.
  { intros data fuel h visited h' visited' key Hcall Hkey.
    by rewrite (find_root_call data fuel h visited h' visited'). }
  split.
  { intros data fuel self t Hv Hh. rewrite find_neighbors_unfold by done.
    unfold dependants. by rewrite (subscript_None _ _ Hh). }
  split.
  { intros data fuel self t cdp before n after Hv Hb Hh Hsplit Hbefore Hn.
    rewrite find_neighbors_unfold by done.
    unfold dependants. rewrite (subscript_Some _ _ _ Hh). simpl.
    fold (is_backbone (hostname_of t.2 self)). rewrite Hb.
    change (comprehension (λ item, search REGEXP_PE_PATTERN item) cdp)
      with (split_list_by_regex cdp REGEXP_PE_PATTERN).1.
    rewrite Hsplit. by rewrite redundancy_loop_KeyError. }
  split.
  { intros recurse self neighbor rest t t2 key E.
    rewrite attach_loop_cons. cbv zeta. by rewrite E. }
  split.
  { intros data fuel h visited self t key.
    split; [apply find_root_KeyError|apply find_neighbors_KeyError]. }
  split.
  { intros data fuel h Hfuel.
    assert (Hterm : find_root data fuel h ∅ ≠ OutOfFuel).
    { apply find_root_terminates.
      assert (Hsub : dom data ∖ ∅ ⊆ dom data) by set_solver.
      apply subseteq_size in Hsub. rewrite size_dom in Hsub. lia. }
    destruct (find_root data fuel h ∅) as [r|key|] eqn:E; [eauto| |done].
    right. exists key. split; [done|]. by eapply find_root_KeyError. }
  split.
  { intros data fuel root Hfuel.
    pose proof (build_fresh_terminates data fuel root Hfuel) as Hterm.
    destruct (build data fuel root fresh) as [t [[]|key|]] eqn:E;
      cbn [snd] in *; [by left| |done].
    right. exists key. split; [done|].
    unfold build in E. destruct (NetworkTreeNode root fresh) as [node σ1].
    apply (find_neighbors_KeyError data fuel node (∅, σ1)). by rewrite E. }
  split.
  { intros data fuel self t deps Hv Hdeps.
    rewrite find_neighbors_unfold by done. by rewrite Hdeps. }
  split; [apply attach_loop_raises|].
  split.
  { intros data fuel self t t1 t2 before n after key Hv Hdeps Hbefore E.
    rewrite find_neighbors_unfold by done. rewrite Hdeps.
    by apply (attach_loop_raises _ _ _ _ _ _ t1). }
  split.
  { intros data fuel fuel' self t t2 key E Hle.
    rewrite (find_neighbors_mono data fuel fuel'); [done| |done].
    by rewrite E. }
  split.
  { intros data fuel target root σ t2 key. split; [|split].
    - unfold build. by destruct (NetworkTreeNode root σ) as [node σ1].
    - intros Hroot Hbuild. unfold main. by rewrite Hroot, Hbuild.
    - intros Hroot. unfold main. by rewrite Hroot. }
  intros data fuel self t Hvalid Hself Hfuel.
  destruct (find_neighbors_terminates data fuel self t Hvalid Hself) as [_ Hterm].
  specialize (Hterm Hfuel).
  destruct (find_neighbors data fuel self t) as [t2 [[]|key|]] eqn:E;
    cbn [snd] in *; [by left| |done].
  right. exists key. split; [done|].
  apply (find_neighbors_KeyError data fuel self t). by rewrite E.
Qed.

(** A source in which a listed neighbour is not a key, for [find_root];
    and for the builder a source in which the missing key is looked up two
    calls below the root, in the call for the second dependant. *)
Lemma lookup_error_propagates_witness :
  find_root (<["lab-a1.example.com" := ["lab-a9.example.com"]]> ∅) 2
    "lab-a1.example.com" ∅
  = KeyError "lab-a9.example.com"
  ∧ (build missing_leaf_data 3 "lab-pe1.example.com" fresh).2
    = KeyError "lab-a9.example.com".
Proof.
  split.
  - refine (proj1 (proj2 lookup_error_propagates) _ 1 "lab-a1.example.com" ∅
      "lab-a9.example.com" ({["lab-a1.example.com"]} ∪ ∅) "lab-a9.example.com" _ _).
    + apply (find_root_calls_first _ _ _ _ []).
      * apply not_elem_of_empty.
      * vm_compute. reflexivity.
      * vm_compute. reflexivity.
      * vm_compute. reflexivity.
    + refine (proj1 lookup_error_propagates _ 0 "lab-a9.example.com" _ _ _ _).
      * apply (bool_decide_unpack _). vm_compute. reflexivity.
      * vm_compute. reflexivity.
      * vm_compute. reflexivity.
  - set (data := missing_leaf_data).
    set (σ := (NetworkTreeNode "lab-pe1.example.com" fresh).2).
    set (t1 := (attach_loop (find_neighbors data 2) 0 ["lab-a1.example.com"] (∅, σ)).1).
    set (t2 := (find_neighbors data 2 (_add_child 0 "lab-a2.example.com" t1.2).1
                  ({[0]} ∪ t1.1, (_add_child 0 "lab-a2.example.com" t1.2).2)).1).
    rewrite (proj1 (proj1 (proj2 (proj2 (proj2 (proj2 (proj2 (proj2 (proj2 (proj2
               (proj2 (proj2 (proj2 (proj2 lookup_error_propagates))))))))))))
               data 3 "" "lab-pe1.example.com" fresh t2 "lab-a9.example.com")).
    + reflexivity.
    + refine (proj1 (proj2 (proj2 (proj2 (proj2 (proj2 (proj2 (proj2 (proj2
               (proj2 (proj2 lookup_error_propagates))))))))))
               data 2 0 (∅, σ) t1 t2 ["lab-a1.example.com"] "lab-a2.example.com" []
               "lab-a9.example.com" _ _ _ _).
      * apply not_elem_of_empty.
      * vm_compute. reflexivity.
      * vm_compute. reflexivity.
      * vm_compute. reflexivity.
Defined.

(** * Further properties *)

(** ** The root finder *)

Lemma find_root_Some_backbone (data : adjacency) (fuel : nat) (h : string)
    (visited : gset string) (r : string) :
  find_root data fuel h visited = Ok (Some r) → is_backbone r = true.
Proof.
  revert h visited. induction fuel as [|fuel IH]; intros h visited; [done|].
  destruct (decide (h ∈ visited)) as [Hv|Hv].
  { by rewrite find_root_visited. }
  destruct (is_backbone h) eqn:Hb.
  { rewrite find_root_backbone by done. by intros [= <-]. }
  rewrite find_root_subscript by done.
  destruct (subscript data h) as [[|n rest]| |]; simpl; try done.
  destruct (is_backbone n) eqn:Hn; [by intros [= <-]|]. apply IH.
Qed.

(** X1.  Whatever [find_root] returns is a backbone hostname; a second call
    on it returns it again. *)
Theorem find_root_result_backbone (data : adjacency) (fuel : nat) (h : string)
    (visited : gset string) (r : string) :
  find_root data fuel h visited = Ok (Some r) →
  is_backbone r = true ∧ ∀ fuel', find_root data (S fuel') r ∅ = Ok (Some r).
Proof.
  intros Hr%find_root_Some_backbone.
  split; [done|]. intros fuel'. by apply find_root_backbone.
Qed.

Lemma find_root_result_backbone_witness :
  is_backbone "sweden-pe1.example.com" = true.
Proof.
  refine (proj1 (find_root_result_backbone STATIC_DATA 4
    "sweden-a7.example.com" ∅ "sweden-pe1.example.com" _)).
  vm_compute. reflexivity.
Defined.

(** X2.  What [find_root] returns is the start or can be reached from it
    along the neighbour lists of the source. *)
Theorem find_root_result_reachable (data : adjacency) (fuel : nat) (h : string)
    (visited : gset string) (r : string) :
  find_root data fuel h visited = Ok (Some r) → reachable data h r.
Proof.
  revert h visited. induction fuel as [|fuel IH]; intros h visited; [done|].
  destruct (decide (h ∈ visited)) as [Hv|Hv].
  { by rewrite find_root_visited. }
  destruct (is_backbone h) eqn:Hb.
  { rewrite find_root_backbone by done. intros [= <-]. apply rtc_refl. }
  rewrite find_root_subscript by done. unfold subscript.
  destruct (data !! h) as [[|n rest]|] eqn:Hh; simpl; try done.
  assert (Hadj : adjacent data h n).
  { exists (n :: rest). split; [done|]. apply elem_of_cons. by left. }
  destruct (is_backbone n) eqn:Hn.
  - intros [= <-]. by apply rtc_once.
  - intros H. eapply rtc_l; [exact Hadj|]. by eapply IH.
Qed.

Lemma find_root_result_reachable_witness :
  reachable STATIC_DATA "sweden-a7.example.com" "sweden-pe1.example.com".
Proof.
  refine (find_root_result_reachable STATIC_DATA 4
    "sweden-a7.example.com" ∅ "sweden-pe1.example.com" _).
  vm_compute. reflexivity.
Defined.

(** X3.  [find_root] never reads past the first neighbour of a device: on
    the source cut down to the first neighbour of every device it does the
    same, returned value or exception. *)
Theorem find_root_first_neighbors (data : adjacency) (fuel : nat) (h : string)
    (visited : gset string) :
  find_root (first_neighbors data) fuel h visited = find_root data fuel h visited.
Proof.
  revert h visited. induction fuel as [|fuel IH]; intros h visited; [done|].
  destruct (decide (h ∈ visited)) as [Hv|Hv].
  { by rewrite !find_root_visited. }
  destruct (is_backbone h) eqn:Hb.
  { by rewrite !find_root_backbone. }
  rewrite !find_root_subscript by done. unfold subscript, first_neighbors.
  rewrite lookup_fmap.
  destruct (data !! h) as [[|n rest]|]; simpl; try done.
  destruct (is_backbone n); [done|]. apply IH.
Qed.

(** ** The backbone pattern *)

Lemma list_ascii_of_string_app (s1 s2 : string) :
  list_ascii_of_string (s1 +:+ s2)
  = list_ascii_of_string s1 ++ list_ascii_of_string s2.
Proof. induction s1 as [|c s1 IH]; simpl; [done|]. by rewrite IH. Qed.

Lemma bytes_of_app (s1 s2 : string) :
  bytes_of (s1 +:+ s2) = bytes_of s1 ++ bytes_of s2.
Proof. unfold bytes_of. by rewrite list_ascii_of_string_app, fmap_app. Qed.

(** A character that a well-formed sequence gives is read from that
    sequence whatever bytes follow. *)
Lemma decode_cons_valid bs c rest :
  decode bs = c :: rest → (c < 1114112)%N →
  ∃ r, rest = decode r ∧ ∀ t, decode (bs ++ t) = c :: decode (r ++ t).
Proof.
  assert (Hinv : ∀ b, ¬ (invalid b < 1114112)%N) by (intros b; unfold invalid; lia).
  destruct bs as [|b0 r0]; [done|]. cbn [decode].
  destruct (b0 <? 128)%N eqn:E0.
  { intros [= <- <-] _. exists r0. split; [done|]. intros t.
    cbn [app decode]. by rewrite E0. }
  destruct r0 as [|b1 r1].
  { intros [= <- <-] Hc. by destruct (Hinv b0). }
  destruct (two_bytes b0 b1) as [c2|] eqn:E2.
  { intros [= <- <-] _. exists r1. split; [done|]. intros t.
    cbn [app decode]. by rewrite E0, E2. }
  destruct r1 as [|b2 r2].
  { intros [= <- <-] Hc. by destruct (Hinv b0). }
  destruct (three_bytes b0 b1 b2) as [c3|] eqn:E3.
  { intros [= <- <-] _. exists r2. split; [done|]. intros t.
    cbn [app decode]. by rewrite E0, E2, E3. }
  destruct r2 as [|b3 r3].
  { intros [= <- <-] Hc. by destruct (Hinv b0). }
  destruct (four_bytes b0 b1 b2 b3) as [c4|] eqn:E4.
  { intros [= <- <-] _. exists r3. split; [done|]. intros t.
    cbn [app decode]. by rewrite E0, E2, E3, E4. }
  intros [= <- <-] Hc. by destruct (Hinv b0).
Qed.

Lemma decode_prefix_valid l bs t :
  Forall (λ c, (c < 1114112)%N) l →
  l `prefix_of` decode bs → l `prefix_of` decode (bs ++ t).
Proof.
  intros Hl. revert bs. induction Hl as [|c l Hc Hl IH]; intros bs [k Hk].
  { apply prefix_nil. }
  destruct (decode_cons_valid bs c (l ++ k) Hk Hc) as (r & Hr & Ht).
  rewrite Ht. apply prefix_cons, IH. by exists k.
Qed.

Lemma in_ranges_bound c ranges bound :
  forallb (λ r, (r.2 <? bound)%N) ranges = true →
  in_ranges c ranges = true → (c < bound)%N.
Proof.
  induction ranges as [|[lo hi] rest IH]; simpl; [done|].
  intros [Hhi Hrest]%andb_true_iff.
  destruct ((lo <=? c)%N && (c <=? hi)%N) eqn:E; [|by apply IH].
  intros _. apply andb_true_iff in E as [_ E].
  apply N.leb_le in E. apply N.ltb_lt in Hhi. lia.
Qed.

Lemma word_code_point c : word c = true → (c < 1114112)%N.
Proof. apply in_ranges_bound. by vm_compute. Qed.

Lemma digit_code_point c : digit c = true → (c < 1114112)%N.
Proof. apply in_ranges_bound. by vm_compute. Qed.

Lemma dashed_code_points labels :
  Forall label labels → Forall (λ c, (c < 1114112)%N) (dashed labels).
Proof.
  induction 1 as [|l labels [_ Hl] _ IH]; [constructor|].
  change (dashed (l :: labels)) with ((l ++ [code "-"]) ++ dashed labels).
  rewrite !Forall_app. split; [split|done].
  - eapply Forall_impl; [exact Hl|]. intros c. apply word_code_point.
  - by repeat constructor.
Qed.

(** X4.  The pattern has no anchor at its end: a hostname that is backbone
    stays backbone whatever is appended to it. *)
Theorem is_backbone_append (h suffix : string) :
  is_backbone h = true → is_backbone (h +:+ suffix) = true.
Proof.
  unfold is_backbone, search, decode_utf8. rewrite !search_from_spec, bytes_of_app.
  intros (s0 & s1 & s2 & E & H).
  pose proof H as H'.
  apply matches_REGEXP_PE_PATTERN in H'
    as (Hb & labels & e & digits & Hne & Hls & He & [_ Hd] & Es1).
  destruct s0; [|done]. cbn [app] in E.
  assert (Hvalid : Forall (λ c, (c < 1114112)%N) s1).
  { rewrite Es1. apply Forall_app. split; [by apply dashed_code_points|].
    constructor; [done|]. apply Forall_app. split.
    { destruct He as [->| ->]; by repeat constructor. }
    apply Forall_app. split; [|by repeat constructor].
    eapply Forall_impl; [exact Hd|]. intros c. apply digit_code_point. }
  destruct (decode_prefix_valid s1 (bytes_of h) (bytes_of suffix) Hvalid) as [k Hk].
  { by exists s2. }
  by exists [], s1, k.
Qed.

Lemma is_backbone_append_witness :
  is_backbone ("sweden-pe1." +:+ "example.com") = true.
Proof.
  refine (is_backbone_append "sweden-pe1." "example.com" _).
  vm_compute. reflexivity.
Defined.

(** ** The classifier *)

Lemma comprehension_app cond l1 l2 :
  comprehension cond (l1 ++ l2) = comprehension cond l1 ++ comprehension cond l2.
Proof.
  induction l1 as [|x l1 IH]; simpl; [done|].
  destruct (cond x); simpl; by rewrite IH.
Qed.

Lemma comprehension_all cond lst :
  (∀ x, x ∈ lst → cond x = true) → comprehension cond lst = lst.
Proof.
  induction lst as [|x lst IH]; intros H; simpl; [done|].
  rewrite (H x) by (apply elem_of_cons; by left).
  rewrite IH; [done|]. intros y Hy. apply H, elem_of_cons. by right.
Qed.

Lemma comprehension_none cond lst :
  (∀ x, x ∈ lst → cond x = false) → comprehension cond lst = [].
Proof.
  induction lst as [|x lst IH]; intros H; simpl; [done|].
  rewrite (H x) by (apply elem_of_cons; by left).
  apply IH. intros y Hy. apply H, elem_of_cons. by right.
Qed.

Lemma comprehension_cond cond lst x :
  x ∈ comprehension cond lst → cond x = true.
Proof.
  induction lst as [|y lst IH]; simpl; [by intros ?%elem_of_nil|].
  destruct (cond y) eqn:Hy; [|done].
  intros [->|H]%elem_of_cons; [done|auto].
Qed.

(** X5.  The classifier works item by item: the lists that it returns for a
    concatenation are the concatenations of the lists that it returns for
    the parts.  Classified again, its first list goes whole to the first
    list and its second list whole to the second. *)
Theorem split_list_by_regex_compose (l1 l2 : list string) (pattern : regex) :
  split_list_by_regex (l1 ++ l2) pattern
  = ((split_list_by_regex l1 pattern).1 ++ (split_list_by_regex l2 pattern).1,
     (split_list_by_regex l1 pattern).2 ++ (split_list_by_regex l2 pattern).2)
  ∧ split_list_by_regex (split_list_by_regex l1 pattern).1 pattern
    = ((split_list_by_regex l1 pattern).1, [])
  ∧ split_list_by_regex (split_list_by_regex l1 pattern).2 pattern
    = ([], (split_list_by_regex l1 pattern).2).
Proof.
  unfold split_list_by_regex. cbn [fst snd].
  split; [by rewrite !comprehension_app|]. split; f_equal.
  - apply comprehension_all. intros x. apply comprehension_cond.
  - apply comprehension_none. intros x Hx%comprehension_cond.
    by rewrite Hx.
  - apply comprehension_none. intros x Hx%comprehension_cond.
    by apply negb_true_iff in Hx.
  - apply comprehension_all. intros x. apply comprehension_cond.
Qed.

(** ** Attaching a child *)

(** The two assignments of an attachment. *)
Lemma attach_spec (self child : addr) (σ1 : State) :
  self < length (heap σ1) → child < length (heap σ1) →
  parent_of (append_child self child (set_parent child self σ1)) child = Some self
  ∧ children_of (append_child self child (set_parent child self σ1)) self
    = children_of σ1 self ++ [child]
  ∧ (∀ a, a ≠ child →
       parent_of (append_child self child (set_parent child self σ1)) a
       = parent_of σ1 a)
  ∧ (∀ a, a ≠ self →
       children_of (append_child self child (set_parent child self σ1)) a
       = children_of σ1 a).
Proof.
  intros Hself Hchild.
  assert (Hlen : self < length (heap (set_parent child self σ1))).
  { unfold set_parent. simpl. by rewrite length_alter. }
  split; [|split; [|split]].
  - rewrite parent_of_append_child, parent_of_set_parent.
    by rewrite decide_True.
  - rewrite children_of_append_child, children_of_set_parent.
    by rewrite decide_True.
  - intros a Ha. rewrite parent_of_append_child, parent_of_set_parent.
    rewrite decide_False; [done|]. by intros [-> _].
  - intros a Ha. rewrite children_of_append_child, !children_of_set_parent.
    rewrite decide_False; [done|]. by intros [-> _].
Qed.

(** X6.  After [self._add_child(h)] the registry holds the returned node
    under [h] and holds under every other hostname what it held.  Let the
    registered nodes be objects and let [self] be an object.  Unless the
    returned node was the parent of [self], the parent pointer of the
    returned node designates [self], the returned node is the new last
    entry of the list of children of [self], and no other parent pointer
    and no other list of children changes. *)
Theorem add_child_registers (self : addr) (h : string) (σ : State) :
  registry_valid σ → self < length (heap σ) →
  get_existing_node h (_add_child self h σ).2 = Some (_add_child self h σ).1
  ∧ (∀ h', h' ≠ h →
       get_existing_node h' (_add_child self h σ).2 = get_existing_node h' σ)
  ∧ (parent_of σ self ≠ Some (_add_child self h σ).1 →
     parent_of (_add_child self h σ).2 (_add_child self h σ).1 = Some self
     ∧ children_of (_add_child self h σ).2 self
       = children_of σ self ++ [(_add_child self h σ).1]
     ∧ (∀ a, a ≠ (_add_child self h σ).1 →
          parent_of (_add_child self h σ).2 a = parent_of σ a)
     ∧ (∀ a, a ≠ self →
          children_of (_add_child self h σ).2 a = children_of σ a)).
Proof.
  intros Hreg Hself.
  unfold get_existing_node at 1 2. rewrite add_child_registry, add_child_fst.
  destruct (get_existing_node h σ) as [c|] eqn:Hh.
  - split; [done|]. split; [done|]. intros Hp.
    unfold _add_child. rewrite Hh. rewrite decide_False by done. cbn [snd].
    apply attach_spec; [done|]. by eapply Hreg.
  - split; [by rewrite lookup_insert_eq|].
    split; [intros h' Hne; unfold get_existing_node; by rewrite lookup_insert_ne|].
    intros Hp. rewrite add_child_unfold. rewrite Hh. cbv zeta.
    change (NetworkTreeNode h σ).1 with (length (heap σ)).
    rewrite decide_False by (by rewrite parent_of_NetworkTreeNode).
    cbn [snd].
    destruct (attach_spec self (length (heap σ)) (NetworkTreeNode h σ).2)
      as (H1 & H2 & H3 & H4).
    { simpl. rewrite length_app. lia. }
    { simpl. rewrite length_app. simpl. lia. }
    rewrite H1, H2. rewrite children_of_NetworkTreeNode.
    split; [done|]. split; [done|]. split.
    + intros a Ha. rewrite H3 by done. apply parent_of_NetworkTreeNode.
    + intros a Ha. rewrite H4 by done. apply children_of_NetworkTreeNode.
Qed.

Lemma add_child_registers_witness :
  get_existing_node "lab-a1.example.com"
    (_add_child 0 "lab-a1.example.com"
       (NetworkTreeNode "lab-pe1.example.com" fresh).2).2
  = Some 1.
Proof.
  refine (proj1 (add_child_registers 0 "lab-a1.example.com"
    (NetworkTreeNode "lab-pe1.example.com" fresh).2 _ _)).
  - intros h a. unfold get_existing_node. simpl. rewrite lookup_insert.
    case_decide; [intros [= <-]; lia|done].
  - simpl. lia.
Defined.

(** ** What the builder keeps *)

Section Keeps.

Variable data : adjacency.

Implicit Types (t : traversal) (self : addr).

Lemma stable_refl σ : stable σ σ.
Proof. by repeat split. Qed.

Lemma stable_trans σ1 σ2 σ3 : stable σ1 σ2 → stable σ2 σ3 → stable σ1 σ3.
Proof.
  intros (H1 & H2 & H3) (G1 & G2 & G3). split; [lia|]. split.
  - intros a Ha. rewrite G2 by lia. by apply H2.
  - intros h a Ha. by apply G3, H3.
Qed.

Lemma add_child_stable self h σ : stable σ (_add_child self h σ).2.
Proof.
  split; [|split].
  - rewrite add_child_length. destruct (get_existing_node h σ); lia.
  - intros a Ha. by apply add_child_hostname_of.
  - intros h' a Ha. unfold get_existing_node. rewrite add_child_registry.
    destruct (get_existing_node h σ) as [c|] eqn:Hh; [done|].
    rewrite lookup_insert_ne; [done|]. intros <-.
    unfold get_existing_node in *. congruence.
Qed.

Lemma attach_loop_stable f self deps t :
  (∀ c t1, stable t1.2 (f c t1).1.2) →
  stable t.2 (attach_loop f self deps t).1.2.
Proof.
  intros Hf. revert t. induction deps as [|n rest IH]; intros t.
  { apply stable_refl. }
  rewrite attach_loop_cons. cbv zeta.
  pose proof (add_child_stable self n t.2) as H1.
  set (c := (_add_child self n t.2).1) in *.
  set (t1 := ({[self]} ∪ t.1, (_add_child self n t.2).2)) in *.
  pose proof (Hf c t1) as H2.
  assert (H12 : stable t.2 (f c t1).1.2) by (by eapply stable_trans).
  destruct (f c t1) as [t2 [[]| |]]; cbn [fst snd] in *; try done.
  eapply stable_trans; [exact H12|apply IH].
Qed.

Lemma find_neighbors_stable fuel self t :
  stable t.2 (find_neighbors data fuel self t).1.2.
Proof.
  revert self t. induction fuel as [|fuel IH]; intros self t.
  { apply stable_refl. }
  destruct (decide (self ∈ t.1)) as [Hv|Hv].
  { rewrite find_neighbors_guard by done. apply stable_refl. }
  rewrite find_neighbors_unfold by done.
  destruct (dependants data (hostname_of t.2 self)) as [deps| |];
    try apply stable_refl.
  apply attach_loop_stable. intros c t1. apply IH.
Qed.

(** The dependants of a hostname are neighbours that the source lists for
    it. *)
Lemma dependants_adjacent h deps n :
  dependants data h = Ok deps → n ∈ deps → adjacent data h n.
Proof.
  unfold dependants, subscript.
  destruct (data !! h) as [cdp|] eqn:Hh; simpl; [|done].
  intros E Hn. exists cdp. split; [done|].
  destruct (search REGEXP_PE_PATTERN h).
  - destruct (redundancy_loop_elem_of _ _ _ _ _ E Hn) as [H|H];
      by apply elem_of_comprehension in H.
  - injection E as <-. by apply elem_of_comprehension in Hn.
Qed.

(** *** A property of the nodes that every attachment keeps is kept by the
    builder *)

Section Invariant.

Variable I : State → Prop.

Hypothesis I_valid : ∀ σ, I σ → registry_valid σ.

Hypothesis I_step : ∀ self n σ,
  I σ → self < length (heap σ) → dependant_of data (hostname_of σ self) n →
  I (_add_child self n σ).2.

Lemma attach_loop_inv fuel self deps t :
  (∀ c t1, I t1.2 → c < length (heap t1.2) →
           I (find_neighbors data fuel c t1).1.2) →
  I t.2 → self < length (heap t.2) →
  (∀ n, n ∈ deps → dependant_of data (hostname_of t.2 self) n) →
  I (attach_loop (find_neighbors data fuel) self deps t).1.2.
Proof using I_valid I_step.
  intros Hrec. revert t.
  induction deps as [|n rest IH]; intros t Ht Hself Hdeps; [done|].
  rewrite attach_loop_cons. cbv zeta.
  destruct (add_child_valid self n t.2 (I_valid _ Ht)) as (_ & Hc & Hlen).
  assert (Ht1 : I (_add_child self n t.2).2).
  { apply I_step; [done|done|]. apply Hdeps, elem_of_cons. by left. }
  pose proof (add_child_stable self n t.2) as Hs1.
  set (c := (_add_child self n t.2).1) in *.
  set (t1 := ({[self]} ∪ t.1, (_add_child self n t.2).2)) in *.
  pose proof (Hrec c t1 Ht1 Hc) as Ht2.
  pose proof (find_neighbors_stable fuel c t1) as Hs2.
  destruct (find_neighbors data fuel c t1) as [t2 [[]| |]];
    cbn [fst snd] in *; try done.
  destruct (stable_trans _ _ _ Hs1 Hs2) as (Hl & Hh & _).
  apply IH; [done|lia|]. intros m Hm. rewrite Hh by done.
  apply Hdeps, elem_of_cons. by right.
Qed.

Lemma find_neighbors_inv fuel self t :
  I t.2 → self < length (heap t.2) →
  I (find_neighbors data fuel self t).1.2.
Proof using I_valid I_step.
  revert self t. induction fuel as [|fuel IH]; intros self t Ht Hself; [done|].
  destruct (decide (self ∈ t.1)) as [Hv|Hv].
  { by rewrite find_neighbors_guard. }
  rewrite find_neighbors_unfold by done.
  destruct (dependants data (hostname_of t.2 self)) as [deps| |] eqn:Ed;
    try done.
  apply attach_loop_inv; [|done|done|].
  - intros c t1. apply IH.
  - intros n Hn. by exists deps.
Qed.

End Invariant.

(** *** Attachment keeps the nodes well built *)

Lemma hostname_of_attach self child σ1 a :
  hostname_of (append_child self child (set_parent child self σ1)) a
  = hostname_of σ1 a.
Proof. by rewrite hostname_of_append_child, hostname_of_set_parent. Qed.

Lemma length_attach self child σ1 :
  length (heap (append_child self child (set_parent child self σ1)))
  = length (heap σ1).
Proof. unfold append_child, set_parent. simpl. by rewrite !length_alter. Qed.

Lemma children_nonempty_valid σ p c : c ∈ children_of σ p → p < length (heap σ).
Proof.
  intros Hc. destruct (decide (p < length (heap σ))) as [|Hge]; [done|].
  unfold children_of in Hc. rewrite blank_beyond in Hc by lia.
  by apply elem_of_nil in Hc.
Qed.

Lemma attach_well_built root self child σ1 :
  names_registered σ1 → links_sound data σ1 → parents_valid σ1 →
  (∀ a, a < length (heap σ1) → a ≠ root → a ≠ child → is_Some (parent_of σ1 a)) →
  self < length (heap σ1) → child < length (heap σ1) →
  dependant_of data (hostname_of σ1 self) (hostname_of σ1 child) →
  well_built data root (append_child self child (set_parent child self σ1)).
Proof.
  intros [Hn1 Hn2] Hl Hp Ha Hself Hchild Hadj.
  destruct (attach_spec self child σ1 Hself Hchild) as (H1 & H2 & H3 & H4).
  split; [|split; [|split]].
  - split.
    + intros h a Hh. rewrite length_attach, hostname_of_attach. by apply Hn1.
    + intros a. rewrite length_attach, hostname_of_attach. apply Hn2.
  - intros p c. rewrite length_attach, !hostname_of_attach.
    destruct (decide (p = self)) as [->|Hne].
    + rewrite H2. intros [Hc| ->%list_elem_of_singleton]%elem_of_app.
      * by apply Hl.
      * done.
    + rewrite H4 by done. apply Hl.
  - intros a p. rewrite length_attach.
    destruct (decide (a = child)) as [->|Hne].
    + rewrite H1. by intros [= <-].
    + rewrite H3 by done. apply Hp.
  - intros a. rewrite length_attach. intros Hlt Hroot.
    destruct (decide (a = child)) as [->|Hne].
    + by rewrite H1.
    + rewrite H3 by done. by apply Ha.
Qed.

Lemma add_child_well_built root self n σ :
  well_built data root σ → self < length (heap σ) →
  dependant_of data (hostname_of σ self) n →
  well_built data root (_add_child self n σ).2.
Proof.
  intros (Hn & Hl & Hp & Ha) Hself Hadj. rewrite add_child_unfold.
  destruct (get_existing_node n σ) as [c|] eqn:Hc; cbv zeta; cbn [fst snd].
  - destruct (decide _); cbn [snd]; [done|].
    destruct (proj1 Hn n c Hc) as [Hlt Hname].
    apply attach_well_built; try done.
    + intros a ? ? _. by apply Ha.
    + by rewrite Hname.
  - rewrite decide_False.
    2:{ rewrite parent_of_NetworkTreeNode. simpl. intros E%Hp. lia. }
    cbn [snd].
    assert (Hlen : length (heap (NetworkTreeNode n σ).2) = S (length (heap σ))).
    { simpl. rewrite length_app. simpl. lia. }
    assert (Hold : ∀ a, a < length (heap σ) →
              hostname_of (NetworkTreeNode n σ).2 a = hostname_of σ a).
    { intros a. apply hostname_of_NetworkTreeNode. }
    assert (Hnew : hostname_of (NetworkTreeNode n σ).2 (length (heap σ)) = n).
    { unfold hostname_of. simpl. by rewrite list_lookup_total_middle. }
    change (NetworkTreeNode n σ).1 with (length (heap σ)).
    apply attach_well_built.
    + split.
      * intros h a. unfold get_existing_node. simpl. rewrite lookup_insert.
        fold (NetworkTreeNode n σ).2. rewrite length_app. simpl.
        case_decide as Hh.
        -- intros [= <-]. subst h. split; [lia|done].
        -- intros Hlook. destruct (proj1 Hn h a Hlook) as [Hlt Hname].
           split; [lia|].
           change (hostname_of (NetworkTreeNode n σ).2 a = h).
           by rewrite Hold.
      * intros a. rewrite Hlen. intros Hlt.
        destruct (decide (a = length (heap σ))) as [->|Hne].
        -- rewrite Hnew. unfold get_existing_node. simpl.
           by rewrite lookup_insert_eq.
        -- rewrite Hold by lia. unfold get_existing_node. simpl.
           assert (Hreg : get_existing_node (hostname_of σ a) σ = Some a)
             by (apply (proj2 Hn); lia).
           rewrite lookup_insert_ne; [done|]. intros E.
           rewrite <- E in Hreg. congruence.
    + intros p c. rewrite (children_of_NetworkTreeNode n σ p). intros Hin.
      destruct (Hl p c Hin) as [Hlt Hpc].
      pose proof (children_nonempty_valid σ p c Hin) as Hpv.
      rewrite Hlen, !Hold by done. split; [lia|done].
    + intros a p. rewrite (parent_of_NetworkTreeNode n σ a), Hlen.
      intros E%Hp. lia.
    + intros a. rewrite Hlen, (parent_of_NetworkTreeNode n σ a).
      intros Hlt Hroot Hne. apply Ha; [lia|done].
    + rewrite Hlen. lia.
    + rewrite Hlen. lia.
    + rewrite Hnew, Hold by done. done.
Qed.

Lemma well_built_registry_valid root σ : well_built data root σ → registry_valid σ.
Proof. intros ([Hn _] & _) h a Hh. by apply (Hn h a). Qed.

(** On a fresh registry the root is the object 0, and the nodes are well
    built when the builder starts. *)
Lemma root_well_built root :
  well_built data 0 (NetworkTreeNode root fresh).2.
Proof.
  split; [|split; [|split]].
  - split.
    + intros h a. unfold get_existing_node. simpl. rewrite lookup_insert.
      case_decide; [intros [= <-]; subst; split; [lia|done]|done].
    + intros a Ha. simpl in Ha. assert (a = 0) as -> by lia.
      unfold get_existing_node. simpl. by rewrite lookup_insert_eq.
  - intros p c. unfold children_of. simpl.
    destruct p as [|[|p]]; simpl; by intros ?%elem_of_nil.
  - intros a p. unfold parent_of. simpl. by destruct a as [|[|a]].
  - intros a Ha Hne. simpl in Ha. lia.
Qed.

Lemma build_well_built fuel root :
  well_built data 0 (build data fuel root fresh).1.2.
Proof.
  unfold build. simpl.
  apply (find_neighbors_inv (well_built data 0)).
  - apply well_built_registry_valid.
  - intros self n σ. apply add_child_well_built.
  - apply root_well_built.
  - simpl. lia.
Qed.

End Keeps.

(** ** The nodes after a run *)

Lemma attach_loop_visited f self deps (t : traversal) :
  (∀ c t1, t1.1 ⊆ (f c t1).1.1) → t.1 ⊆ (attach_loop f self deps t).1.1.
Proof.
  intros Hf. revert t. induction deps as [|n rest IH]; intros t; [done|].
  rewrite attach_loop_cons. cbv zeta.
  set (c := (_add_child self n t.2).1).
  set (t1 := ({[self]} ∪ t.1, (_add_child self n t.2).2)).
  pose proof (Hf c t1) as H1. pose proof (IH (f c t1).1) as H2.
  assert (H0 : t.1 ⊆ t1.1) by (unfold t1; cbn [fst]; set_solver).
  destruct (f c t1) as [t2 [[]| |]]; cbn [fst snd] in *;
    [etrans; [exact H0|]; etrans; [exact H1|exact H2]
    |by etrans|by etrans].
Qed.

Lemma find_neighbors_visited data fuel self (t : traversal) :
  t.1 ⊆ (find_neighbors data fuel self t).1.1.
Proof.
  revert self t. induction fuel as [|fuel IH]; intros self t; [done|].
  destruct (decide (self ∈ t.1)) as [Hv|Hv].
  { by rewrite find_neighbors_guard. }
  rewrite find_neighbors_unfold by done.
  destruct (dependants data (hostname_of t.2 self)) as [deps| |]; try done.
  apply attach_loop_visited. intros c t1. apply IH.
Qed.

(** X7.  Whatever its outcome, [find_neighbors] only adds: every object is
    still there under its hostname, every registry entry is as it was, and
    every visited node is still visited. *)
Theorem find_neighbors_keeps (data : adjacency) (fuel : nat) (self : addr)
    (t : traversal) :
  length (heap t.2) ≤ length (heap (find_neighbors data fuel self t).1.2)
  ∧ (∀ a, a < length (heap t.2) →
       hostname_of (find_neighbors data fuel self t).1.2 a = hostname_of t.2 a)
  ∧ (∀ h a, get_existing_node h t.2 = Some a →
       get_existing_node h (find_neighbors data fuel self t).1.2 = Some a)
  ∧ t.1 ⊆ (find_neighbors data fuel self t).1.1.
Proof.
  destruct (find_neighbors_stable data fuel self t) as (H1 & H2 & H3).
  repeat split; try done. apply find_neighbors_visited.
Qed.

(** X8.  After a run of the builder on a fresh registry, whatever its
    outcome, the registry and the objects name each other: a registered
    hostname designates an object of that hostname, every object is
    registered under its hostname, and so no two objects have one hostname.
    The root is the object 0. *)
Theorem build_one_node_per_hostname (data : adjacency) (fuel : nat) (root : string) :
  (∀ h a, get_existing_node h (build data fuel root fresh).1.2 = Some a →
          a < length (heap (build data fuel root fresh).1.2)
          ∧ hostname_of (build data fuel root fresh).1.2 a = h)
  ∧ (∀ a, a < length (heap (build data fuel root fresh).1.2) →
          get_existing_node (hostname_of (build data fuel root fresh).1.2 a)
            (build data fuel root fresh).1.2 = Some a)
  ∧ (∀ a b, a < length (heap (build data fuel root fresh).1.2) →
            b < length (heap (build data fuel root fresh).1.2) →
            hostname_of (build data fuel root fresh).1.2 a
            = hostname_of (build data fuel root fresh).1.2 b → a = b)
  ∧ get_existing_node root (build data fuel root fresh).1.2 = Some 0
  ∧ hostname_of (build data fuel root fresh).1.2 0 = root.
Proof.
  destruct (build_well_built data fuel root) as ([H1 H2] & _).
  split; [done|]. split; [done|]. split.
  { intros a b Ha Hb E. pose proof (H2 a Ha) as Ea. rewrite E, (H2 b Hb) in Ea.
    by injection Ea. }
  unfold build in *. simpl in *.
  destruct (find_neighbors_stable data fuel 0
    (∅, mkState [mkNode root None []] (<[root := 0]> ∅))) as (_ & G2 & G3).
  split.
  - apply G3. unfold get_existing_node. simpl. by rewrite lookup_insert_eq.
  - rewrite G2 by (simpl; lia). done.
Qed.

Lemma redundancy_loop_backbone data mpls acc l n :
  redundancy_loop data mpls acc = Ok l → n ∈ l →
  n ∈ acc ∨ (n ∈ mpls ∧ length (backbone_neighbors data n) < 2).
Proof.
  revert acc. induction mpls as [|m rest IH]; intros acc; simpl.
  - intros [= <-]. by left.
  - unfold subscript. destruct (data !! m) as [cdp|] eqn:Hm; simpl; [|done].
    assert (Hb : backbone_neighbors data m
                 = comprehension (λ item, search REGEXP_PE_PATTERN item) cdp).
    { unfold backbone_neighbors. by rewrite Hm. }
    destruct (Nat.ltb_spec
      (length (comprehension (λ item, search REGEXP_PE_PATTERN item) cdp)) 2)
      as [Hlt|Hge]; intros E Hn; destruct (IH _ E Hn) as [H|[H1 H2]].
    + apply elem_of_app in H as [H|H%list_elem_of_singleton]; [by left|].
      right. subst n. split; [apply elem_of_cons; by left|by rewrite Hb].
    + right. split; [apply elem_of_cons; by right|done].
    + by left.
    + right. split; [apply elem_of_cons; by right|done].
Qed.

(** A dependant is a listed neighbour; a backbone dependant is a dependant
    of a backbone hostname and has fewer than two backbone neighbours. *)
Lemma dependant_of_cases data hp hc :
  dependant_of data hp hc →
  adjacent data hp hc
  ∧ (is_backbone hc = true →
     is_backbone hp = true ∧ length (backbone_neighbors data hc) < 2).
Proof.
  intros (deps & E & Hin). split; [by eapply dependants_adjacent|].
  intros Hc. revert E. unfold dependants, subscript.
  destruct (data !! hp) as [cdp|]; simpl; [|done].
  fold (is_backbone hp). destruct (is_backbone hp).
  - intros E. split; [done|].
    destruct (redundancy_loop_backbone _ _ _ _ _ E Hin) as [H|[_ H]]; [|done].
    apply comprehension_cond in H. fold (is_backbone hc) in H.
    rewrite Hc in H. done.
  - intros [= <-]. apply comprehension_cond in Hin.
    fold (is_backbone hc) in Hin. rewrite Hc in Hin. done.
Qed.

(** X9.  After a run of the builder on a fresh registry, whatever its
    outcome, every entry of a list of children is an object whose hostname
    the source lists among the neighbours of the hostname of the parent.  A
    backbone child has a backbone parent and fewer than two backbone
    neighbours: a node that is not backbone has no backbone child. *)
Theorem build_links_dependants (data : adjacency) (fuel : nat) (root : string)
    (p c : addr) :
  c ∈ children_of (build data fuel root fresh).1.2 p →
  c < length (heap (build data fuel root fresh).1.2)
  ∧ p < length (heap (build data fuel root fresh).1.2)
  ∧ adjacent data (hostname_of (build data fuel root fresh).1.2 p)
                  (hostname_of (build data fuel root fresh).1.2 c)
  ∧ (is_backbone (hostname_of (build data fuel root fresh).1.2 c) = true →
     is_backbone (hostname_of (build data fuel root fresh).1.2 p) = true
     ∧ length (backbone_neighbors data
                 (hostname_of (build data fuel root fresh).1.2 c)) < 2).
Proof.
  intros Hin. destruct (build_well_built data fuel root) as (_ & Hl & _).
  destruct (Hl p c Hin) as [Hc Hd].
  split; [done|]. split; [by eapply children_nonempty_valid|].
  by apply dependant_of_cases.
Qed.

Lemma build_links_dependants_witness :
  adjacent STATIC_DATA "sweden-pe1.example.com" "denmark-pe2.example.com".
Proof.
  refine (proj1 (proj2 (proj2 (build_links_dependants STATIC_DATA 5
    "sweden-pe1.example.com" 0 8 _)))).
  apply (bool_decide_unpack _). vm_compute. reflexivity.
Defined.

(** X10.  After a run of the builder on a fresh registry, whatever its
    outcome, every object but the root is attached: its parent pointer
    designates an object, and it is in the list of children of that
    object. *)
Theorem build_nodes_attached (data : adjacency) (fuel : nat) (root : string)
    (a : addr) :
  a < length (heap (build data fuel root fresh).1.2) → a ≠ 0 →
  ∃ p, parent_of (build data fuel root fresh).1.2 a = Some p
       ∧ p < length (heap (build data fuel root fresh).1.2)
       ∧ a ∈ children_of (build data fuel root fresh).1.2 p.
Proof.
  intros Ha Hroot.
  destruct (build_well_built data fuel root) as (_ & _ & Hp & Hatt).
  destruct (Hatt a Ha Hroot) as [p Hpa]. exists p.
  split; [done|]. split; [by eapply Hp|].
  by apply build_parent_listed.
Qed.

Lemma build_nodes_attached_witness :
  ∃ p, parent_of (build STATIC_DATA 5 "sweden-pe1.example.com" fresh).1.2 8 = Some p
       ∧ p < length (heap (build STATIC_DATA 5 "sweden-pe1.example.com" fresh).1.2)
       ∧ 8 ∈ children_of (build STATIC_DATA 5 "sweden-pe1.example.com" fresh).1.2 p.
Proof.
  refine (build_nodes_attached STATIC_DATA 5 "sweden-pe1.example.com" 8 _ _).
  - vm_compute. lia.
  - lia.
Defined.

(** X11.  From any nodes whose registered hostnames designate objects, a
    traversal from an object returns or raises as soon as the fuel exceeds
    the number of objects not visited plus the number of listed hostnames
    without an object; and that number does not grow. *)
Theorem find_neighbors_returns (data : adjacency) (fuel : nat) (self : addr)
    (t : traversal) :
  registry_valid t.2 → self < length (heap t.2) →
  unexplored data t < fuel →
  (find_neighbors data fuel self t).2 ≠ OutOfFuel
  ∧ unexplored data (find_neighbors data fuel self t).1 ≤ unexplored data t
  ∧ registry_valid (find_neighbors data fuel self t).1.2.
Proof.
  intros Hreg Hself Hfuel.
  destruct (find_neighbors_terminates data fuel self t Hreg Hself)
    as [(H1 & _ & _ & H4) H5].
  split; [by apply H5|]. by split.
Qed.

Lemma find_neighbors_returns_witness :
  (find_neighbors STATIC_DATA 20 0
     (∅, (NetworkTreeNode "sweden-pe1.example.com" fresh).2)).2 ≠ OutOfFuel.
Proof.
  refine (proj1 (find_neighbors_returns STATIC_DATA 20 0
    (∅, (NetworkTreeNode "sweden-pe1.example.com" fresh).2) _ _ _)).
  - intros h a. unfold get_existing_node. simpl. rewrite lookup_insert.
    case_decide; [intros [= <-]; lia|done].
  - simpl. lia.
  - vm_compute. lia.
Defined.

(** ** Depth and printing *)

Lemma get_level_loop_Some σ fuel a level m :
  get_level_loop σ fuel (Some a) level = Ok m ↔
  ∃ n, m = level + S n ∧ S n < fuel
       ∧ ∃ r, ancestor σ n a = Some r ∧ parent_of σ r = None.
Proof.
  revert a level. induction fuel as [|fuel IH]; intros a level.
  { split; [done|]. intros (n & _ & Hlt & _). lia. }
  cbn [get_level_loop]. destruct (parent_of σ a) as [p|] eqn:Hp.
  - rewrite IH. split.
    + intros (n & -> & Hlt & r & Hr & Hnone). exists (S n).
      split; [lia|]. split; [lia|]. exists r. split; [|done].
      simpl. by rewrite Hp.
    + intros (n & -> & Hlt & r & Hr & Hnone). destruct n as [|n].
      { simpl in Hr. injection Hr as <-. congruence. }
      exists n. split; [lia|]. split; [lia|]. exists r. split; [|done].
      simpl in Hr. by rewrite Hp in Hr.
  - destruct fuel as [|fuel]; simpl.
    + split; [done|]. intros (n & _ & Hlt & _). lia.
    + split.
      * intros [= <-]. exists 0. split; [lia|]. split; [lia|]. by exists a.
      * intros (n & -> & Hlt & r & Hr & Hnone). destruct n as [|n].
        { f_equal; lia. }
        simpl in Hr. by rewrite Hp in Hr.
Qed.

Lemma get_level_spec σ fuel a m :
  _get_level σ fuel a = Ok m ↔
  m < fuel ∧ ∃ r, ancestor σ m a = Some r ∧ parent_of σ r = None.
Proof.
  unfold _get_level. destruct (parent_of σ a) as [p|] eqn:Hp.
  - rewrite get_level_loop_Some. split.
    + intros (n & -> & Hlt & r & Hr & Hnone). split; [lia|].
      exists r. split; [|done]. simpl. by rewrite Hp.
    + intros (Hlt & r & Hr & Hnone). destruct m as [|m].
      { simpl in Hr. injection Hr as <-. congruence. }
      exists m. split; [done|]. split; [lia|]. exists r. split; [|done].
      simpl in Hr. by rewrite Hp in Hr.
  - destruct fuel as [|fuel]; simpl.
    + split; [done|]. intros [Hlt _]. lia.
    + split.
      * intros [= <-]. split; [lia|]. by exists a.
      * intros (Hlt & r & Hr & Hnone). destruct m as [|m]; [done|].
        simpl in Hr. by rewrite Hp in Hr.
Qed.

(** X12.  [_get_level] returns [m] exactly when [m] parent hops from the
    node lead to a node without parent (and the fuel exceeds [m]).  So the
    level of a node without parent is 0, the level of a node is one more
    than the level of its parent, and [_get_level] returns on no node
    whose parent pointers lead back to it. *)
Theorem get_level_is_depth (σ : State) (fuel : nat) (a : addr) :
  (∀ m, _get_level σ fuel a = Ok m ↔
        m < fuel ∧ ∃ r, ancestor σ m a = Some r ∧ parent_of σ r = None)
  ∧ (parent_of σ a = None → _get_level σ (S fuel) a = Ok 0)
  ∧ (∀ p m, parent_of σ a = Some p → _get_level σ fuel p = Ok m →
            _get_level σ (S fuel) a = Ok (S m))
  ∧ (∀ n, ancestor σ (S n) a = Some a → _get_level σ fuel a = OutOfFuel).
Proof.
  split; [intros m; apply get_level_spec|]. split; [|split].
  - intros Hp. apply get_level_spec. split; [lia|]. by exists a.
  - intros p m Hp (Hlt & r & Hr & Hnone)%get_level_spec.
    apply get_level_spec. split; [lia|]. exists r. split; [|done].
    simpl. by rewrite Hp.
  - intros n Hcycle.
    assert (Hadd : ∀ i j x y, ancestor σ i x = Some y →
                     ancestor σ (i + j) x = ancestor σ j y).
    { induction i as [|i IH]; intros j x y; simpl; [by intros [= ->]|].
      destruct (parent_of σ x) as [q|]; simpl; [apply IH|done]. }
    assert (Hnever : ∀ k, ∀ m, m < k → ∀ r, ancestor σ m a = Some r →
                       parent_of σ r ≠ None).
    { induction k as [|k IH]; intros m Hm r Hr Hnone; [lia|].
      destruct (decide (m < S n)) as [Hlt|Hge].
      - (* the top would be met before the node comes back to itself *)
        assert (E : ancestor σ (m + (S n - m)) a = ancestor σ (S n - m) r)
          by (by apply Hadd).
        replace (m + (S n - m)) with (S n) in E by lia.
        rewrite Hcycle in E.
        destruct (S n - m) as [|d] eqn:Ed; [lia|].
        simpl in E. by rewrite Hnone in E.
      - (* remove one turn of the cycle *)
        assert (E : ancestor σ (S n + (m - S n)) a = ancestor σ (m - S n) a)
          by (by apply Hadd).
        replace (S n + (m - S n)) with m in E by lia.
        rewrite Hr in E. symmetry in E.
        apply (IH (m - S n) ltac:(lia) r E Hnone). }
    destruct (_get_level σ fuel a) as [m|key|] eqn:E; [|exfalso|done].
    + apply get_level_spec in E as (Hlt & r & Hr & Hnone).
      by destruct (Hnever (S m) m ltac:(lia) r Hr).
    + (* [_get_level] subscripts nothing *)
      revert E. unfold _get_level. generalize (parent_of σ a) 0.
      induction fuel as [|f IH]; intros o l; simpl; [done|].
      destruct o; [apply IH|done].
Qed.

Lemma string_length_app (s1 s2 : string) :
  String.length (s1 +:+ s2) = String.length s1 + String.length s2.
Proof. induction s1 as [|c s1 IH]; simpl; [done|]. by rewrite IH. Qed.

Lemma string_length_str_mul (s : string) (n : nat) :
  String.length (str_mul s n) = n * String.length s.
Proof.
  induction n as [|n IH]; simpl; [done|].
  by rewrite string_length_app, IH.
Qed.

Lemma descendant_trans σ a c d :
  descendant σ a c → descendant σ c d → descendant σ a d.
Proof.
  intros Hac. induction 1 as [|p x Hp IH Hx]; [done|].
  by eapply descendant_child.
Qed.

Lemma print_children_Forall (P : string → Prop) recurse children lines :
  (∀ c l, c ∈ children → recurse c = Ok l → Forall P l) →
  print_children recurse children = Ok lines → Forall P lines.
Proof.
  revert lines. induction children as [|c rest IH]; intros lines Hrec; simpl.
  - by intros [= <-].
  - destruct (recurse c) as [l| |] eqn:Ec; simpl; try done.
    destruct (print_children recurse rest) as [more| |] eqn:Er; simpl; try done.
    intros [= <-]. apply Forall_app. split.
    + apply (Hrec c); [apply elem_of_cons; by left|done].
    + apply IH; [|done]. intros c' l' Hc'. apply Hrec, elem_of_cons. by right.
Qed.

(** X13.  When [print_tree] returns, the first line that it has printed is
    the line of the node itself, and every line is the line of a node that
    can be reached from it through the lists of children, at the level that
    [_get_level] gives for that node.  The line of a node with a parent is
    its hostname after three spaces per level and the mark of three
    characters; the line of a node without parent is its hostname. *)
Theorem print_tree_lines (σ : State) (fuel : nat) (self : addr)
    (lines : list string) :
  print_tree σ fuel self = Ok lines →
  (∃ level rest,
     _get_level σ fuel self = Ok level
     ∧ lines = tree_line σ self level :: rest)
  ∧ Forall (λ line, ∃ d f level,
              descendant σ self d ∧ _get_level σ f d = Ok level
              ∧ line = tree_line σ d level
              ∧ String.length line
                = match parent_of σ d with
                  | Some _ => 3 * level + 3
                  | None => 0
                  end + String.length (hostname_of σ d)) lines.
Proof.
  revert self lines. induction fuel as [|fuel IH]; intros self lines; [done|].
  cbn [print_tree].
  destruct (_get_level σ (S fuel) self) as [level| |] eqn:El; simpl; try done.
  destruct (print_children (print_tree σ fuel) (children_of σ self))
    as [more| |] eqn:Ec; simpl; try done.
  intros [= <-]. split; [by exists level, more|].
  constructor.
  - exists self, (S fuel), level. split; [apply descendant_root|].
    split; [done|]. split; [done|].
    unfold tree_line. cbv zeta. rewrite string_length_app.
    destruct (parent_of σ self); [|done].
    rewrite string_length_app, !string_length_str_mul. simpl. lia.
  - eapply print_children_Forall; [|exact Ec].
    intros c l Hc Hl. destruct (IH c l Hl) as [_ Hall].
    eapply Forall_impl; [exact Hall|].
    intros line (d & f & lvl & Hd & Hlvl & Hline & Hlen).
    exists d, f, lvl. split; [|done].
    eapply descendant_trans; [|exact Hd].
    eapply descendant_child; [apply descendant_root|done].
Qed.

(** What [main] prints for its target [sweden-a1] on the example of the
    program. *)
Example main_prints :
  print_tree (main STATIC_DATA 5 "sweden-a1.example.com").1 6 1
  = Ok [ "   |--sweden-a1.example.com";
         "      |--sweden-a3.example.com";
         "         |--sweden-a7.example.com";
         "      |--sweden-a5.example.com" ].
Proof. by vm_compute. Qed.

Lemma print_tree_lines_witness :
  ∃ level rest,
    _get_level (main STATIC_DATA 5 "sweden-a1.example.com").1 6 1 = Ok level
    ∧ [ "   |--sweden-a1.example.com";
        "      |--sweden-a3.example.com";
        "         |--sweden-a7.example.com";
        "      |--sweden-a5.example.com" ]
      = tree_line (main STATIC_DATA 5 "sweden-a1.example.com").1 1 level :: rest.
Proof.
  refine (proj1 (print_tree_lines (main STATIC_DATA 5 "sweden-a1.example.com").1
    6 1 _ _)).
  vm_compute. reflexivity.
Defined.

(** ** The entry point *)

(** X14.  [main] builds a tree only when [find_root] returns a hostname;
    that hostname is backbone, and the root of the tree is the object 0,
    registered under it.  When [find_root] returns [None], [main] makes no
    node; when it raises, so does [main], for a key that the source does
    not hold. *)
Theorem main_root_backbone (data : adjacency) (fuel : nat) (target : string) :
  match find_root data fuel target ∅ with
  | Ok (Some r) =>
      is_backbone r = true
      ∧ get_existing_node r (main data fuel target).1 = Some 0
      ∧ hostname_of (main data fuel target).1 0 = r
      ∧ (main data fuel target).1 = (build data fuel r fresh).1.2
      ∧ (main data fuel target).2 = (build data fuel r fresh).2
  | Ok None => main data fuel target = (fresh, Ok ())
  | KeyError key => main data fuel target = (fresh, KeyError key) ∧ data !! key = None
  | OutOfFuel => main data fuel target = (fresh, OutOfFuel)
  end.
Proof.
  unfold main.
  destruct (find_root data fuel target ∅) as [[r|]|key|] eqn:E; try done.
  - apply find_root_Some_backbone in E.
    assert (Hm : (let '(t, res) := build data fuel r fresh in (t.2, res))
                 = ((build data fuel r fresh).1.2, (build data fuel r fresh).2)).
    { by destruct (build data fuel r fresh) as [t res]. }
    rewrite Hm. cbn [fst snd]. split; [done|].
    unfold build. simpl.
    destruct (find_neighbors_stable data fuel 0
      (∅, mkState [mkNode r None []] (<[r := 0]> ∅))) as (_ & G2 & G3).
    split; [|split; [|done]].
    + apply G3. unfold get_existing_node. simpl. by rewrite lookup_insert_eq.
    + rewrite G2 by (simpl; lia). done.
  - split; [done|]. by eapply find_root_KeyError.
Qed.
